(** * mpanel codemods: [fix-catch-blocks.py] and [fix-ts-errors.py]

    Both scripts read a TypeScript controller, run [re.sub] with a
    callback that puts [return ] in front of an exit-triggering call
    unless a short window of text before the match already holds the
    word [return], and write the file back when the text changed.

    The development has five parts:
    - the text model (Python [str] as a list of code points) and the
      string operations the callbacks use (slices, [in]);
    - a backtracking matcher for the fragment of [re] syntax that the
      three patterns use, with [search], [finditer] and [sub];
    - the two scripts, over a small file-system monad;
    - the notions in which the properties are stated;
    - the properties of the rewrite, with their proofs. *)

From Stdlib Require Import NArith Ascii String Lia.
From stdpp Require Import gmap strings list sorting pretty.

Local Open Scope N_scope.
Local Open Scope nat_scope.

(** ** Text *)

(** A Python [str] is a sequence of Unicode code points. *)
Abbreviation text := (list N).

Fixpoint lit (s : string) : text :=
  match s with
  | EmptyString => []
  | String a s' => N_of_ascii a :: lit s'
  end.

(** [Py_UNICODE_ISSPACE], which is what [\s] tests on a [str] pattern. *)
Definition is_space (c : N) : bool :=
  ((9 <=? c) && (c <=? 13) || (28 <=? c) && (c <=? 32)
   || (c =? 133) || (c =? 160) || (c =? 5760)
   || (8192 <=? c) && (c <=? 8202)
   || (c =? 8232) || (c =? 8233) || (c =? 8239) || (c =? 8287)
   || (c =? 12288))%N.

(** [s[a:b]] for non-negative [a] and [b]. *)
Definition slice (s : text) (a b : nat) : text := take (b - a) (drop a s).

Fixpoint starts_with (p s : text) : bool :=
  match p, s with
  | [], _ => true
  | x :: p', y :: s' => (x =? y)%N && starts_with p' s'
  | _ :: _, [] => false
  end.

(** [needle in hay]. *)
Fixpoint contains (needle hay : text) : bool :=
  starts_with needle hay ||
  match hay with
  | [] => false
  | _ :: hay' => contains needle hay'
  end.

(** ** The [re] fragment *)

(** Every pattern of the two scripts is built from literal characters,
    one-character sets ([\s], [[^)]]), the greedy [+] of such a set,
    concatenation and numbered groups.  No pattern of this fragment
    matches the empty string. *)
Inductive regex : Type :=
| Chr (c : N)
| Cls (p : N -> bool)
| Plus (p : N -> bool)
| Seq (r1 r2 : regex)
| Grp (n : nat) (r : regex).

Fixpoint Str (c : N) (cs : text) : regex :=
  match cs with
  | [] => Chr c
  | c' :: cs' => Seq (Chr c) (Str c' cs')
  end.

(** A literal word of the pattern; the scripts have no empty literal. *)
Definition word (s : string) : regex :=
  match lit s with
  | [] => Cls (fun _ => false)
  | c :: cs => Str c cs
  end.

(** Group number, start and end offsets; the latest capture first. *)
Abbreviation captures := (list (nat * (nat * nat))).

(** The tail of a greedy repetition: take one more character of the set
    when that leads to a match, otherwise go on with the rest of the
    pattern from here. *)
Fixpoint rep {A} (p : N -> bool) (k : nat -> text -> option A)
    (i : nat) (s : text) : option A :=
  match s with
  | c :: s' =>
      if p c then
        match rep p k (S i) s' with
        | Some a => Some a
        | None => k i s
        end
      else k i s
  | [] => k i []
  end.

(** Backtracking matcher in continuation-passing style: [i] is the
    offset of [s] in the subject string, [k] is the rest of the
    pattern. *)
Fixpoint exec {A} (r : regex) (k : nat -> text -> captures -> option A)
    (i : nat) (s : text) (g : captures) : option A :=
  match r with
  | Chr c =>
      match s with
      | x :: s' => if (x =? c)%N then k (S i) s' g else None
      | [] => None
      end
  | Cls p =>
      match s with
      | x :: s' => if p x then k (S i) s' g else None
      | [] => None
      end
  | Plus p =>
      match s with
      | x :: s' => if p x then rep p (fun j t => k j t g) (S i) s' else None
      | [] => None
      end
  | Seq r1 r2 => exec r1 (exec r2 k) i s g
  | Grp n r => exec r (fun j t g' => k j t ((n, (i, j)) :: g')) i s g
  end.

(** A match object: [m.string], the span of the whole match and the
    spans of its groups. *)
Record Match := {
  m_string : text;
  m_start : nat;
  m_end : nat;
  m_groups : captures
}.

Fixpoint assoc (n : nat) (g : captures) : option (nat * nat) :=
  match g with
  | [] => None
  | (n', sp) :: g' => if Nat.eqb n n' then Some sp else assoc n g'
  end.

(** [m.group(n)]; [None] stands for the [IndexError] of a group the
    pattern does not have. *)
Definition group (m : Match) (n : nat) : option text :=
  match n with
  | O => Some (slice (m_string m) (m_start m) (m_end m))
  | _ =>
      match assoc n (m_groups m) with
      | Some (a, b) => Some (slice (m_string m) a b)
      | None => None
      end
  end.

(** The match of [r] that starts exactly at offset [i] of [str], where
    [s] is [str] from [i] on. *)
Definition match_at (r : regex) (str : text) (i : nat) (s : text)
    : option Match :=
  match exec r (fun j _ g => Some (j, g)) i s [] with
  | Some (j, g) =>
      Some {| m_string := str; m_start := i; m_end := j; m_groups := g |}
  | None => None
  end.

(** Leftmost match at or after offset [i]. *)
Fixpoint search_from (r : regex) (str : text) (i : nat) (s : text)
    : option Match :=
  match match_at r str i s with
  | Some m => Some m
  | None =>
      match s with
      | [] => None
      | _ :: s' => search_from r str (S i) s'
      end
  end.

Definition search (r : regex) (str : text) (pos : nat) : option Match :=
  search_from r str pos (drop pos str).

(** The loop of [re.sub]: find the next match from [pos], copy the text
    before it, append the replacement, go on from the end of the match.
    A match of this fragment is never empty, so [S (length str)] rounds
    are enough (see [sub_loop_fuel]). *)
Fixpoint sub_loop (fuel : nat) (r : regex) (repl : Match -> option text)
    (str : text) (pos : nat) : option text :=
  match fuel with
  | O => None
  | S fuel' =>
      match search r str pos with
      | None => Some (drop pos str)
      | Some m =>
          match repl m, sub_loop fuel' r repl str (m_end m) with
          | Some new, Some rest => Some (slice str pos (m_start m) ++ new ++ rest)
          | _, _ => None
          end
      end
  end.

Definition re_sub (r : regex) (repl : Match -> option text) (str : text)
    : option text :=
  sub_loop (S (length str)) r repl str 0.

(** The matches [re.sub] visits, in order ([re.finditer]). *)
Fixpoint iter_loop (fuel : nat) (r : regex) (str : text) (pos : nat)
    : list Match :=
  match fuel with
  | O => []
  | S fuel' =>
      match search r str pos with
      | None => []
      | Some m => m :: iter_loop fuel' r str (m_end m)
      end
  end.

Definition finditer (r : regex) (str : text) : list Match :=
  iter_loop (S (length str)) r str 0.

(** ** The rules of the two scripts *)

Definition kw : text := lit "return".
Definition kw_sp : text := lit "return ".

(** [m.string[max(0, m.start()-w):m.start()]] *)
Definition window (w : nat) (m : Match) : text :=
  slice (m_string m) (Nat.max 0 (m_start m - w)) (m_start m).

Definition guarded (w : nat) (m : Match) : bool := contains kw (window w m).

(** The callback of all three substitutions:
    [m.group(1) + 'return ' + m.group(2) if 'return' not in <window>
     else m.group(0)]. *)
Definition add_return (w : nat) (m : Match) : option text :=
  if negb (guarded w m) then
    match group m 1, group m 2 with
    | Some g1, Some g2 => Some (g1 ++ kw_sp ++ g2)
    | _, _ => None
    end
  else group m 0.

Definition not_rparen (c : N) : bool := negb (c =? 41)%N.

(** [(\s+)(next\(error\);)] *)
Definition next_error_re : regex :=
  Seq (Grp 1 (Plus is_space)) (Grp 2 (word "next(error);")).

(** [(\s+)(res\.json\()] *)
Definition res_json_re : regex :=
  Seq (Grp 1 (Plus is_space)) (Grp 2 (word "res.json(")).

(** [(\s+)(res\.status\([^)]+\)\.json\()] *)
Definition res_status_json_re : regex :=
  Seq (Grp 1 (Plus is_space))
      (Grp 2 (Seq (word "res.status(")
                  (Seq (Plus not_rparen) (word ").json(")))).

(** ** Files *)

(** The files the scripts can read, the paths that cannot be opened for
    writing, the writes the scripts performed (latest first) and the
    lines they printed (latest first). *)
Record world := {
  files : gmap string text;
  unwritable : gset string;
  writes : list (string * text);
  stdout : list string
}.

(** Computations that read and change the world; [None] is an uncaught
    exception, which ends the run. *)
Definition io (A : Type) : Type := world -> option (A * world).

#[export] Instance io_ret : MRet io := fun A a w => Some (a, w).

#[export] Instance io_bind : MBind io := fun A B f c w =>
  match c w with
  | Some (a, w') => f a w'
  | None => None
  end.

(** [open(path, 'r').read()] *)
Definition read_file (path : string) : io text :=
  fun w => match files w !! path with
           | Some t => Some (t, w)
           | None => None
           end.

(** [open(path, 'w').write(content)]: [open] raises for a path that
    cannot be opened for writing, and nothing catches it. *)
Definition write_file (path : string) (content : text) : io unit :=
  fun w =>
    if decide (path ∈ unwritable w) then None
    else Some (tt, {| files := <[path := content]> (files w);
                      unwritable := unwritable w;
                      writes := (path, content) :: writes w;
                      stdout := stdout w |}).

Definition print (line : string) : io unit :=
  fun w => Some (tt, {| files := files w;
                        unwritable := unwritable w;
                        writes := writes w;
                        stdout := line :: stdout w |}).

(** The newline of [print(f"\nFixed ...")]. *)
Definition nl : string := String (ascii_of_nat 10) EmptyString.

Definition raise_or {A} (o : option A) : io A :=
  fun w => match o with
           | Some a => Some (a, w)
           | None => None
           end.

Definition text_eqb (a b : text) : bool := bool_decide (a = b).

(** ** fix-catch-blocks.py *)
Module FixCatchBlocks.

(** The [re.sub] call of [fix_catch_blocks]. *)
Definition rewrite (content : text) : option text :=
  re_sub next_error_re (add_return 30) content.

Definition fix_catch_blocks (file_path : string) : io bool :=
  content ← read_file file_path;
  let original := content in
  content ← raise_or (rewrite content);
  if negb (text_eqb content original) then
    write_file file_path content;;
    mret true
  else mret false.

(** The loop of [main] over the paths that [rglob] yields. *)
Fixpoint main_loop (found : list string) (fixed : nat) : io nat :=
  match found with
  | [] => mret fixed
  | controller_file :: found' =>
      b ← fix_catch_blocks controller_file;
      if (b : bool) then
        print ("Fixed: " +:+ controller_file);;
        main_loop found' (fixed + 1)
      else main_loop found' fixed
  end.

Definition main (found : list string) : io unit :=
  fixed ← main_loop found 0;
  print (nl +:+ "Fixed " +:+ pretty fixed +:+ " files").

End FixCatchBlocks.

(** ** fix-ts-errors.py *)
Module FixTsErrors.

(** The two [re.sub] calls of [fix_controller_returns], in order. *)
Definition rewrite_json (content : text) : option text :=
  re_sub res_json_re (add_return 20) content.

Definition rewrite_status (content : text) : option text :=
  re_sub res_status_json_re (add_return 20) content.

Definition rewrite (content : text) : option text :=
  match rewrite_json content with
  | Some content' => rewrite_status content'
  | None => None
  end.

Definition fix_controller_returns (file_path : string) : io bool :=
  content ← read_file file_path;
  let original := content in
  content ← raise_or (rewrite content);
  if negb (text_eqb content original) then
    write_file file_path content;;
    mret true
  else mret false.

Fixpoint main_loop (found : list string) (fixed_count : nat) : io nat :=
  match found with
  | [] => mret fixed_count
  | controller_file :: found' =>
      b ← fix_controller_returns controller_file;
      if (b : bool) then
        print ("  Fixed: " +:+ controller_file);;
        main_loop found' (fixed_count + 1)
      else main_loop found' fixed_count
  end.

Definition main (found : list string) : io unit :=
  print "Fixing controller return statements...";;
  fixed_count ← main_loop found 0;
  print (nl +:+ "Fixed " +:+ pretty fixed_count +:+ " controller files");;
  print (nl +:+ "Note: Service file database access errors require manual review");;
  print "The pattern 'prisma.table.method()' needs table models defined in Prisma schema".

End FixTsErrors.

(** * Notions used by the properties *)

Fixpoint run_len (p : N -> bool) (s : text) : nat :=
  match s with
  | c :: s' => if p c then S (run_len p s') else 0
  | [] => 0
  end.

(** The call token at the head of a text, for a literal token. *)
Definition tok_lit (l s : text) : option nat :=
  if starts_with l s then Some (length l) else None.

(** [res.status(], a non-empty run of characters other than [)], and
    [).json(]. *)
Definition tok_status (s : text) : option nat :=
  if starts_with (lit "res.status(") s then
    let n := run_len not_rparen (drop 11 s) in
    if (0 <? n) && starts_with (lit ").json(") (drop (11 + n) s)
    then Some (11 + n + 7) else None
  else None.

(** All three patterns have the shape [(\s+)(body)]. *)
Definition rule (body : regex) : regex :=
  Seq (Grp 1 (Plus is_space)) (Grp 2 body).

(** What the proofs need to know of a rule's body: it matches in one
    way only, a token of at least six characters that neither starts
    nor ends with white space. *)
Record token (body : regex) (tok : text -> option nat) : Prop := {
  tok_exec : forall A (k : nat -> text -> captures -> option A) i s g,
    exec body k i s g =
    match tok s with
    | Some n => k (i + n) (drop n s) g
    | None => None
    end;
  tok_first : forall c s n, tok (c :: s) = Some n -> is_space c = false;
  tok_last : forall s n, tok s = Some n ->
    exists c, s !! (n - 1) = Some c /\ is_space c = false;
  tok_length : forall s n, tok s = Some n -> 6 <= n <= length s
}.

(** The rule at the head of a text: the length of the white space and
    the length of the token after it. *)
Definition hit (tok : text -> option nat) (s : text) : option (nat * nat) :=
  let n := run_len is_space s in
  if 0 <? n then
    match tok (drop n s) with
    | Some l => Some (n, l)
    | None => None
    end
  else None.

Definition mk_match (str : text) (i n l : nat) : Match :=
  {| m_string := str; m_start := i; m_end := i + n + l;
     m_groups := [(2, (i + n, i + n + l)); (1, (i, i + n))] |}.

(** The text [re.sub] builds from the matches it visits. *)
Fixpoint splice (repl : Match -> option text) (str : text) (pos : nat)
    (ms : list Match) : option text :=
  match ms with
  | [] => Some (drop pos str)
  | m :: ms' =>
      match repl m, splice repl str (m_end m) ms' with
      | Some new, Some rest => Some (slice str pos (m_start m) ++ new ++ rest)
      | _, _ => None
      end
  end.

Definition no_space (l : text) : bool := forallb (fun c => negb (is_space c)) l.

Definition tok_next : text -> option nat := tok_lit (lit "next(error);").
Definition tok_json : text -> option nat := tok_lit (lit "res.json(").

(** [m.start(n)] *)
Definition start_of (m : Match) (n : nat) : option nat :=
  match n with
  | O => Some (m_start m)
  | _ => fst <$> assoc n (m_groups m)
  end.

(** The offsets where a pass puts the keyword: the start of group 2 of
    every match whose window does not hold [return]. *)
Fixpoint insertion_points (w : nat) (ms : list Match) : list nat :=
  match ms with
  | [] => []
  | m :: ms' =>
      if guarded w m then insertion_points w ms'
      else match start_of m 2 with
           | Some p => p :: insertion_points w ms'
           | None => insertion_points w ms'
           end
  end.

(** [s] with [ins] put in at each of the offsets [ps] of [s]; the
    offsets are increasing and the last one is served first, so that an
    insertion does not move the offsets still to be served. *)
Fixpoint insert_all (ps : list nat) (ins s : text) : text :=
  match ps with
  | [] => s
  | p :: ps' =>
      let s' := insert_all ps' ins s in
      take p s' ++ ins ++ drop p s'
  end.

(** No white space right before offset [i]: [i] is the start of the
    text or follows a character that is not white space. *)
Definition boundary (str : text) (i : nat) : Prop :=
  i = 0 \/ exists c, str !! (i - 1) = Some c /\ is_space c = false.

(** The matches a pass over [str] visits from offset [pos] on: each is
    the first place at or after the end of the one before where the
    rule applies. *)
Inductive chain (tok : text -> option nat) (str : text)
    : nat -> list Match -> Prop :=
| chain_nil pos :
    (forall j, pos <= j -> hit tok (drop j str) = None) ->
    chain tok str pos []
| chain_cons pos i n l ms :
    pos <= i ->
    hit tok (drop i str) = Some (n, l) ->
    (forall j, pos <= j < i -> hit tok (drop j str) = None) ->
    chain tok str (i + n + l) ms ->
    chain tok str pos (mk_match str i n l :: ms).

(** A match of a rule: white space from a boundary on, then the
    token. *)
Definition match_ok (tok : text -> option nat) (str : text) (m : Match) : Prop :=
  exists i n l, m = mk_match str i n l /\
    hit tok (drop i str) = Some (n, l) /\ boundary str i.

(** [t] comes from [s] by [k] insertions of [ins], one after the other,
    and by nothing else. *)
Inductive insertions (ins : text) : nat -> text -> text -> Prop :=
| ins_zero s : insertions ins 0 s s
| ins_step k s a b :
    insertions ins k s (a ++ b) -> insertions ins (S k) s (a ++ ins ++ b).

Definition points_next (T : text) : list nat :=
  insertion_points 30 (finditer next_error_re T).
Definition points_json (T : text) : list nat :=
  insertion_points 20 (finditer res_json_re T).
Definition points_status (T : text) : list nat :=
  insertion_points 20 (finditer res_status_json_re T).

(** [out] is [T] after one pass of rule [r] with a window of [w]
    characters: [return ] stands before group 2 of every match whose
    window has no [return], and all the rest is as it was. *)
Definition pass (r : regex) (w : nat) (T out : text) : Prop :=
  exists ps : list nat,
    StronglySorted lt ps /\
    (forall p, p ∈ ps <->
       exists m, m ∈ finditer r T /\ guarded w m = false /\ start_of m 2 = Some p) /\
    out = insert_all ps kw_sp T.

(** [s.rstrip()] *)
Fixpoint rstrip (s : text) : text :=
  match s with
  | [] => []
  | c :: s' =>
      match rstrip s' with
      | [] => if is_space c then [] else [c]
      | r => c :: r
      end
  end.

(** [s.endswith(suf)] *)
Definition ends_with (suf s : text) : bool :=
  starts_with (reverse suf) (reverse s).

Definition all_space (s : text) : Prop := Forall (fun c => is_space c = true) s.

Definition rules : list (regex * nat) :=
  [(next_error_re, 30); (res_json_re, 20); (res_status_json_re, 20)].

(** The world after [path] was overwritten with [out]. *)
Definition written (path : string) (out : text) (w : world) : world :=
  {| files := <[path := out]> (files w);
     unwritable := unwritable w;
     writes := (path, out) :: writes w;
     stdout := stdout w |}.

(** A call token at offset [p], right after a white-space character. *)
Definition call_at (tok : text -> option nat) (T : text) (p : nat) : bool :=
  match p with
  | O => false
  | S q =>
      match T !! q, tok (drop p T) with
      | Some c, Some _ => is_space c
      | _, _ => false
      end
  end.

(** The text before offset [p] ends, white space aside, with [return]. *)
Definition return_before (T : text) (p : nat) : bool :=
  ends_with kw (rstrip (take p T)).

(** [return] stands before every call of the rule. *)
Definition already_fixed (tok : text -> option nat) (T : text) : Prop :=
  forall p, call_at tok T p = true -> return_before T p = true.

(** Decides [already_fixed] on a literal text of fewer than [n]
    characters by trying every offset. *)
Tactic Notation "fixed_by_cases" integer(n) :=
  let p := fresh "p" in
  intros p;
  do n (try (destruct p as [|p];
             [vm_compute; let H := fresh in intros H;
              first [reflexivity | discriminate H] |]));
  vm_compute; let H := fresh in intros H; discriminate H.

(** A text that ends with [return] and white space after it. *)
Definition doubled (t : text) : Prop :=
  exists pre ws, t = pre ++ kw ++ ws /\ ws <> [] /\ all_space ws.

(** How many of the offsets [ps] lie before [o]. *)
Fixpoint count_below (o : nat) (ps : list nat) : nat :=
  match ps with
  | [] => 0
  | q :: ps' => (if q <? o then 1 else 0) + count_below o ps'
  end.

(** One file, which can be written. *)
Definition world0 (path : string) (T : text) : world :=
  {| files := {[ path := T ]}; unwritable := ∅; writes := []; stdout := [] |}.

(** What a script does with one file for the rewrite [rw]: nothing when
    the text stays the same, one write otherwise, which raises when the
    file cannot be written. *)
Definition run_one (rw : text -> option text) (path : string) : io bool :=
  fun w =>
    match files w !! path with
    | Some T =>
        match rw T with
        | Some out =>
            if decide (out = T) then Some (false, w)
            else if decide (path ∈ unwritable w) then None
            else Some (true, written path out w)
        | None => None
        end
    | None => None
    end.

(** The write a script performs for [path], if any. *)
Definition write_of (rw : text -> option text) (w : world) (path : string)
    : option (string * text) :=
  match files w !! path with
  | Some T =>
      match rw T with
      | Some out => if decide (out = T) then None else Some (path, out)
      | None => None
      end
  | None => None
  end.

(** The script raises on [path]: the file cannot be read, or its text
    changes and the file cannot be written. *)
Definition fails_on (rw : text -> option text) (w : world) (path : string)
    : Prop :=
  files w !! path = None \/
  (is_Some (write_of rw w path) /\ path ∈ unwritable w).

(** The loop of both [main] functions. *)
Fixpoint count_loop (f : string -> io bool) (label : string)
    (found : list string) (fixed : nat) : io nat :=
  match found with
  | [] => mret fixed
  | file :: found' =>
      b ← f file;
      if (b : bool) then
        print (label +:+ file);;
        count_loop f label found' (fixed + 1)
      else count_loop f label found' fixed
  end.

(** Two controllers: one to fix, one fixed already. *)
Definition world2 : world :=
  {| files := {[ "a.controller.ts" := lit "  next(error);";
                 "b.controller.ts" := lit "  return next(error);" ]};
     unwritable := ∅; writes := []; stdout := [] |}.

(** The same two controllers, neither of which can be written. *)
Definition world3 : world :=
  {| files := files world2;
     unwritable := {[ "a.controller.ts"; "b.controller.ts" ]};
     writes := []; stdout := [] |}.

(** Offset [p] lies in a [//] comment: [//] stands before it on the
    same line. *)
Definition in_line_comment (T : text) (p : nat) : Prop :=
  exists a b, take p T = a ++ lit "//" ++ b /\ (10%N ∉ b).

(** Offset [p] lies in a single-quoted string that starts on the same
    line and is still open. *)
Definition in_quoted (T : text) (p : nat) : Prop :=
  exists a b, take p T = a ++ lit "'" ++ b /\
    (10%N ∉ b) /\ (39%N ∉ a) /\ (39%N ∉ b).

(** [s.count(c)] for a single character. *)
Fixpoint count_char (c : N) (s : text) : nat :=
  match s with
  | [] => 0
  | x :: s' => (if (x =? c)%N then 1 else 0) + count_char c s'
  end.

(** [return] lies within the last [w] characters of [s]. *)
Definition recent (w : nat) (s : text) : Prop :=
  exists a b, s = a ++ kw ++ b /\ length (kw ++ b) <= w.

(** [X'] is [X] with [return ] put in at some places, each after white
    space whose start has no [return] in the [w] characters before it;
    [A] is the text that stands before [X]. *)
Inductive padded (w : nat) : text -> text -> text -> Prop :=
| padded_nil A : padded w A [] []
| padded_char A c X X' :
    padded w (A ++ [c]) X X' -> padded w A (c :: X) (c :: X')
| padded_ins A A0 ws X X' :
    A = A0 ++ ws -> ws <> [] -> all_space ws -> ~ recent w A0 ->
    padded w A X X' -> padded w A X (kw_sp ++ X').

(** The text [P] does not end with white space. *)
Definition clean (P : text) : Prop :=
  forall P0 c, P = P0 ++ [c] -> is_space c = false.

(** Wherever the rule applies in [str] after a text that does not end
    with white space, [return] is among the [w] characters before. *)
Definition settled (w : nat) (tok : text -> option nat) (str : text) : Prop :=
  forall P X, str = P ++ X -> is_Some (hit tok X) -> clean P -> recent w P.

(** * Properties *)

(** ** Strings *)

Lemma starts_with_prefix p s : starts_with p s = true <-> p `prefix_of` s.
Proof.
  revert s. induction p as [|x p IH]; intros s; simpl.
  - split; [intros _; apply prefix_nil | done].
  - destruct s as [|y s]; simpl.
    + split; [done | intros H; by apply prefix_nil_inv in H].
    + rewrite andb_true_iff, N.eqb_eq, IH. split.
      * intros [-> H]. by apply prefix_cons.
      * intros H. split; [by apply prefix_cons_inv_1 in H | by apply prefix_cons_inv_2 in H].
Qed.

Lemma starts_with_split p s :
  starts_with p s = true -> s = p ++ drop (length p) s.
Proof.
  intros [k ->]%starts_with_prefix. by rewrite drop_app_length.
Qed.

Lemma starts_with_length p s : starts_with p s = true -> length p <= length s.
Proof. intros H%starts_with_prefix. by apply prefix_length. Qed.

Lemma run_len_le p s : run_len p s <= length s.
Proof. induction s as [|c s IH]; simpl; [lia|]. destruct (p c); simpl; lia. Qed.

Lemma run_len_all p s j c :
  j < run_len p s -> s !! j = Some c -> p c = true.
Proof.
  revert j. induction s as [|x s IH]; intros j; simpl; [lia|].
  destruct (p x) eqn:Hx; [|lia].
  destruct j as [|j]; simpl.
  - intros _ [= <-]. done.
  - intros Hj. apply IH. lia.
Qed.

(** ** The matcher on the rules *)

Lemma rep_greedy {A} p (k : nat -> text -> option A) i s :
  (forall j c t, p c = true -> k j (c :: t) = None) ->
  rep p k i s = k (i + run_len p s) (drop (run_len p s) s).
Proof.
  intros Hk. revert i. induction s as [|c s IH]; intros i; simpl.
  - by rewrite Nat.add_0_r.
  - destruct (p c) eqn:Hc.
    + rewrite IH. replace (S i + run_len p s) with (i + S (run_len p s)) by lia.
      simpl. destruct (k _ _) eqn:Hr; [done|]. by apply Hk.
    + by rewrite Nat.add_0_r.
Qed.

Lemma exec_Str {A} c cs (k : nat -> text -> captures -> option A) i s g :
  exec (Str c cs) k i s g =
  if starts_with (c :: cs) s
  then k (i + S (length cs)) (drop (S (length cs)) s) g else None.
Proof.
  revert c i s. induction cs as [|c' cs IH]; intros c i s; simpl.
  - destruct s as [|x s]; [done|]. rewrite (N.eqb_sym c x).
    destruct (x =? c)%N; simpl; [|done].
    rewrite drop_0. by replace (i + 1) with (S i) by lia.
  - destruct s as [|x s]; [done|]. rewrite (N.eqb_sym c x).
    destruct (x =? c)%N; [|done].
    rewrite IH. simpl. destruct s as [|y s]; [done|].
    destruct (c' =? y)%N; simpl; [|done].
    destruct (starts_with cs s); [|done].
    f_equal. lia.
Qed.

Lemma exec_word {A} w (k : nat -> text -> captures -> option A) i s g :
  lit w <> [] ->
  exec (word w) k i s g =
  match tok_lit (lit w) s with
  | Some n => k (i + n) (drop n s) g
  | None => None
  end.
Proof.
  intros Hw. unfold word, tok_lit. destruct (lit w) as [|c cs] eqn:E; [done|].
  rewrite exec_Str. by destruct (starts_with _ _).
Qed.

Lemma starts_with_head x p c u :
  (c =? x)%N = false -> starts_with (x :: p) (c :: u) = false.
Proof. intros H. simpl. by rewrite N.eqb_sym, H. Qed.

Lemma exec_status {A} (k : nat -> text -> captures -> option A) i s g :
  exec (Seq (word "res.status(") (Seq (Plus not_rparen) (word ").json("))) k i s g =
  match tok_status s with
  | Some n => k (i + n) (drop n s) g
  | None => None
  end.
Proof.
  cbn [exec]. rewrite exec_word by done. unfold tok_status, tok_lit.
  destruct (starts_with (lit "res.status(") s) eqn:E1; [|done].
  change (length (lit "res.status(")) with 11.
  destruct (drop 11 s) as [|x t] eqn:E2.
  { cbn. done. }
  cbn [exec run_len]. destruct (not_rparen x) eqn:Hx; [|done].
  rewrite rep_greedy.
  2:{ intros j c u Hc. rewrite exec_word by done. unfold tok_lit.
      unfold not_rparen in Hc. apply negb_true_iff in Hc.
      change (lit ").json(") with (41%N :: lit ".json(").
      by rewrite starts_with_head. }
  rewrite exec_word by done. unfold tok_lit.
  change (length (lit ").json(")) with 7.
  replace (drop (11 + S (run_len not_rparen t)) s)
    with (drop (run_len not_rparen t) t).
  2:{ rewrite <- (drop_drop s _ 11), E2. done. }
  cbn [Nat.ltb Nat.leb andb].
  destruct (starts_with (lit ").json(") _) eqn:E3; [|done].
  rewrite drop_drop.
  assert (drop (run_len not_rparen t + 7) t = drop (11 + S (run_len not_rparen t) + 7) s) as ->.
  { replace (11 + S (run_len not_rparen t) + 7) with (11 + (1 + (run_len not_rparen t + 7))) by lia.
    rewrite <- (drop_drop s _ 11), E2. done. }
  f_equal. lia.
Qed.

Section Rule.
Context {body : regex} {tok : text -> option nat} (T : token body tok).

Lemma match_at_rule str i s :
  match_at (rule body) str i s =
  match hit tok s with
  | Some (n, l) => Some (mk_match str i n l)
  | None => None
  end.
Proof.
  unfold match_at, rule, hit. cbn [exec].
  destruct s as [|x s]; [done|]. cbn [run_len].
  destruct (is_space x) eqn:Hx; [|done].
  rewrite rep_greedy.
  2:{ intros j c t Hc. rewrite (tok_exec _ _ T).
      destruct (tok (c :: t)) eqn:E; [|done].
      apply (tok_first _ _ T) in E. congruence. }
  rewrite (tok_exec _ _ T). cbn [Nat.ltb Nat.leb drop].
  destruct (tok _) as [l|]; [|done].
  unfold mk_match. by replace (S i + run_len is_space s) with (i + S (run_len is_space s)) by lia.
Qed.

End Rule.

(** ** The loops of [re.sub] and [re.finditer] *)

(** A match of the fragment consumes at least one character. *)
Lemma rep_progress {A} p (k : nat -> text -> option A) i s a :
  rep p k i s = Some a ->
  exists j t, i <= j /\ j + length t = i + length s /\ k j t = Some a.
Proof.
  revert i. induction s as [|c s IH]; intros i; simpl.
  - intros H. exists i, []. done.
  - destruct (p c).
    + destruct (rep p k (S i) s) as [b|] eqn:E.
      * intros [= ->]. destruct (IH _ E) as (j & t & ? & ? & ?).
        exists j, t. split_and!; [lia | lia | done].
      * intros H. exists i, (c :: s). done.
    + intros H. exists i, (c :: s). done.
Qed.

Lemma exec_progress {A} r (k : nat -> text -> captures -> option A) i s g a :
  exec r k i s g = Some a ->
  exists j t g', i < j /\ j + length t = i + length s /\ k j t g' = Some a.
Proof.
  revert k i s g. induction r as [c|p|p|r1 IH1 r2 IH2|n r IH]; intros k i s g; cbn [exec].
  - destruct s as [|x s]; [done|]. destruct (x =? c)%N; [|done].
    intros H. exists (S i), s, g. simpl. split_and!; [lia | lia | done].
  - destruct s as [|x s]; [done|]. destruct (p x); [|done].
    intros H. exists (S i), s, g. simpl. split_and!; [lia | lia | done].
  - destruct s as [|x s]; [done|]. destruct (p x); [|done].
    intros (j & t & ? & ? & ?)%rep_progress.
    exists j, t, g. simpl. split_and!; [lia | lia | done].
  - intros (j & t & g1 & ? & ? & H)%IH1.
    apply IH2 in H as (j' & t' & g2 & ? & ? & ?).
    exists j', t', g2. split_and!; [lia | lia | done].
  - intros (j & t & g1 & ? & ? & H)%IH. eauto 10.
Qed.

Lemma match_at_bounds r str i s m :
  match_at r str i s = Some m ->
  m_string m = str /\ m_start m = i /\ i < m_end m <= i + length s.
Proof.
  unfold match_at. destruct (exec _ _ _ _ _) as [[j g]|] eqn:E; [|done].
  intros [= <-]. simpl.
  apply exec_progress in E as (j' & t & g' & ? & ? & [= -> ->]).
  split_and!; try done; lia.
Qed.

Lemma search_from_bounds r str i s m :
  search_from r str i s = Some m ->
  m_string m = str /\ i <= m_start m /\ m_start m < m_end m <= i + length s.
Proof.
  revert i. induction s as [|c s IH]; intros i; simpl.
  - destruct (match_at r str i []) eqn:E; [|done]. intros [= ->].
    apply match_at_bounds in E as (? & ? & ?). simpl in *. split_and!; try done; lia.
  - destruct (match_at r str i (c :: s)) eqn:E.
    + intros [= ->]. apply match_at_bounds in E as (? & ? & ?). simpl in *. split_and!; try done; lia.
    + intros (? & ? & ?)%IH. split_and!; try done; lia.
Qed.

Lemma search_bounds r str pos m :
  search r str pos = Some m ->
  m_string m = str /\ pos <= m_start m /\ m_start m < m_end m <= length str.
Proof.
  unfold search. intros (? & ? & H)%search_from_bounds. rewrite length_drop in H.
  split_and!; try done; lia.
Qed.

Lemma iter_loop_fuel r str f1 f2 pos :
  length str - pos < f1 -> length str - pos < f2 ->
  iter_loop f1 r str pos = iter_loop f2 r str pos.
Proof.
  revert f2 pos. induction f1 as [|f1 IH]; intros f2 pos H1 H2; [lia|].
  destruct f2 as [|f2]; [lia|]. simpl.
  destruct (search r str pos) as [m|] eqn:E; [|done].
  apply search_bounds in E as (? & ? & ?). f_equal. apply IH; lia.
Qed.

Lemma sub_loop_splice r repl str fuel pos :
  length str - pos < fuel ->
  sub_loop fuel r repl str pos = splice repl str pos (iter_loop fuel r str pos).
Proof.
  revert pos. induction fuel as [|fuel IH]; intros pos H; [lia|]. simpl.
  destruct (search r str pos) as [m|] eqn:E; [|done].
  apply search_bounds in E as (? & ? & ?). simpl. rewrite IH by lia. done.
Qed.

(** The fuel of [re_sub] is enough: more fuel changes nothing. *)
Lemma sub_loop_fuel r repl str fuel :
  length str < fuel ->
  sub_loop fuel r repl str 0 = re_sub r repl str.
Proof.
  intros H. unfold re_sub. rewrite !sub_loop_splice by lia.
  f_equal. apply iter_loop_fuel; lia.
Qed.

Lemma re_sub_splice r repl str :
  re_sub r repl str = splice repl str 0 (finditer r str).
Proof. unfold re_sub, finditer. apply sub_loop_splice. lia. Qed.

(** ** What [search] finds for a rule *)

Section RuleSearch.
Context {body : regex} {tok : text -> option nat} (T : token body tok).

Lemma hit_Some s n l :
  hit tok s = Some (n, l) ->
  n = run_len is_space s /\ 0 < n /\ tok (drop n s) = Some l /\
  6 <= l /\ n + l <= length s.
Proof.
  unfold hit. destruct (0 <? run_len is_space s) eqn:E; [|done].
  apply Nat.ltb_lt in E.
  destruct (tok (drop _ s)) as [l'|] eqn:Et; [|done].
  intros [= <- <-]. split_and!; try done.
  - apply (tok_length _ _ T) in Et. lia.
  - apply (tok_length _ _ T) in Et. rewrite length_drop in Et.
    pose proof (run_len_le is_space s). lia.
Qed.

Lemma hit_nil : hit tok [] = None.
Proof. done. Qed.

Lemma search_from_rule str i s :
  match search_from (rule body) str i s with
  | Some m =>
      exists d n l, m = mk_match str (i + d) n l /\
        hit tok (drop d s) = Some (n, l) /\
        forall d', d' < d -> hit tok (drop d' s) = None
  | None => forall d, hit tok (drop d s) = None
  end.
Proof.
  revert i. induction s as [|c s IH]; intros i; cbn [search_from].
  - rewrite (match_at_rule T). rewrite hit_nil. intros d. by rewrite drop_nil.
  - rewrite (match_at_rule T). destruct (hit tok (c :: s)) as [[n l]|] eqn:E.
    + exists 0, n, l. rewrite Nat.add_0_r. split_and!; [done | done | lia].
    + specialize (IH (S i)). destruct (search_from _ _ _ s) as [m|].
      * destruct IH as (d & n & l & -> & Hh & Hn).
        exists (S d), n, l. split_and!.
        -- f_equal. lia.
        -- done.
        -- intros [|d'] ?; [done|]. apply Hn. lia.
      * intros [|d]; [done|]. apply IH.
Qed.

Lemma search_rule str pos :
  match search (rule body) str pos with
  | Some m =>
      exists i n l, m = mk_match str i n l /\ pos <= i /\
        hit tok (drop i str) = Some (n, l) /\
        forall j, pos <= j < i -> hit tok (drop j str) = None
  | None => forall j, pos <= j -> hit tok (drop j str) = None
  end.
Proof.
  unfold search. pose proof (search_from_rule str pos (drop pos str)) as H.
  destruct (search_from _ _ _ _) as [m|].
  - destruct H as (d & n & l & -> & Hh & Hn). rewrite drop_drop in Hh.
    exists (pos + d), n, l. split_and!; [done | lia | done |].
    intros j Hj. specialize (Hn (j - pos)). rewrite drop_drop in Hn.
    replace (pos + (j - pos)) with j in Hn by lia. apply Hn. lia.
  - intros j Hj. specialize (H (j - pos)). rewrite drop_drop in H.
    by replace (pos + (j - pos)) with j in H by lia.
Qed.

(** Induction over the matches of a rule, in the order [re.sub]
    visits them. *)
Lemma iter_loop_ind str (P : nat -> list Match -> Prop) :
  (forall pos, (forall j, pos <= j -> hit tok (drop j str) = None) -> P pos []) ->
  (forall pos i n l ms,
      pos <= i -> hit tok (drop i str) = Some (n, l) ->
      (forall j, pos <= j < i -> hit tok (drop j str) = None) ->
      P (i + n + l) ms -> P pos (mk_match str i n l :: ms)) ->
  forall fuel pos, length str - pos < fuel ->
    P pos (iter_loop fuel (rule body) str pos).
Proof.
  intros Hnil Hcons. induction fuel as [|fuel IH]; intros pos Hf; [lia|].
  cbn [iter_loop]. pose proof (search_rule str pos) as H.
  destruct (search _ _ _) as [m|].
  - destruct H as (i & n & l & -> & Hpos & Hh & Hn).
    apply Hcons; try done.
    change (m_end (mk_match str i n l)) with (i + n + l). apply IH.
    apply hit_Some in Hh as (_ & ? & _ & _ & Hl).
    rewrite length_drop in Hl. lia.
  - by apply Hnil.
Qed.

Lemma finditer_ind str (P : nat -> list Match -> Prop) :
  (forall pos, (forall j, pos <= j -> hit tok (drop j str) = None) -> P pos []) ->
  (forall pos i n l ms,
      pos <= i -> hit tok (drop i str) = Some (n, l) ->
      (forall j, pos <= j < i -> hit tok (drop j str) = None) ->
      P (i + n + l) ms -> P pos (mk_match str i n l :: ms)) ->
  P 0 (finditer (rule body) str).
Proof. intros H1 H2. unfold finditer. apply iter_loop_ind; [done | done | lia]. Qed.

End RuleSearch.

(** ** The three rules *)

Lemma no_space_lookup l j c :
  no_space l = true -> l !! j = Some c -> is_space c = false.
Proof.
  unfold no_space. rewrite forallb_forall. intros H Hj.
  apply negb_true_iff, H, list_elem_of_In. by eapply list_elem_of_lookup_2.
Qed.

Lemma token_lit w :
  6 <= length (lit w) -> no_space (lit w) = true ->
  token (word w) (tok_lit (lit w)).
Proof.
  intros Hlen Hns. assert (lit w <> []) as Hne by (intros E; rewrite E in Hlen; simpl in Hlen; lia).
  split.
  - intros. by apply exec_word.
  - unfold tok_lit. intros c s n. destruct (starts_with _ _) eqn:E; [|done]. intros _.
    apply starts_with_prefix in E as [k E].
    destruct (lit w) as [|x l] eqn:Ew; [done|]. injection E as -> _.
    apply (no_space_lookup (x :: l) 0); done.
  - unfold tok_lit. intros s n. destruct (starts_with _ _) eqn:E; [|done]. intros [= <-].
    apply starts_with_prefix in E as [k ->].
    destruct (lookup_lt_is_Some_2 (lit w) (length (lit w) - 1)) as [c Hc]; [lia|].
    exists c. split; [by apply lookup_app_l_Some | by eapply no_space_lookup].
  - unfold tok_lit. intros s n. destruct (starts_with _ _) eqn:E; [|done]. intros [= <-].
    apply starts_with_length in E. lia.
Qed.

Lemma token_next : token (word "next(error);") tok_next.
Proof. apply token_lit; [simpl; lia | done]. Qed.

Lemma token_json : token (word "res.json(") tok_json.
Proof. apply token_lit; [simpl; lia | done]. Qed.

Lemma tok_status_Some s n :
  tok_status s = Some n ->
  exists a, 0 < length a /\ n = 11 + length a + 7 /\
    s = lit "res.status(" ++ a ++ lit ").json(" ++ drop n s /\
    Forall (fun c => not_rparen c = true) a.
Proof.
  unfold tok_status. destruct (starts_with (lit "res.status(") s) eqn:E1; [|done].
  set (r := run_len not_rparen (drop 11 s)).
  destruct (0 <? r) eqn:E2; [|done]. apply Nat.ltb_lt in E2.
  destruct (starts_with (lit ").json(") _) eqn:E3; [|done]. intros [= <-].
  pose proof (run_len_le not_rparen (drop 11 s)) as Hle. fold r in Hle.
  rewrite length_drop in Hle.
  exists (take r (drop 11 s)). rewrite length_take, length_drop.
  split_and!; [lia | lia | |].
  - apply starts_with_split in E1. change (length (lit "res.status(")) with 11 in E1.
    apply starts_with_split in E3. change (length (lit ").json(")) with 7 in E3.
    rewrite drop_drop in E3.
    rewrite E1 at 1. f_equal.
    rewrite <- (take_drop r (drop 11 s)) at 1. f_equal.
    rewrite drop_drop. rewrite E3 at 1. by f_equal.
  - apply Forall_forall. intros c [j Hj]%list_elem_of_lookup.
    apply lookup_take_Some in Hj as [Hj ?].
    eapply run_len_all; [|done]. done.
Qed.

Lemma token_status :
  token (Seq (word "res.status(") (Seq (Plus not_rparen) (word ").json(")))
        tok_status.
Proof.
  split.
  - intros. apply exec_status.
  - intros c s n (a & _ & _ & E & _)%tok_status_Some.
    injection E as -> _. done.
  - intros s n H. pose proof H as (a & Ha & -> & E & _)%tok_status_Some.
    exists 40%N. split; [|done]. rewrite E.
    rewrite lookup_app_r by (simpl; lia).
    rewrite lookup_app_r by (simpl; lia).
    rewrite lookup_app_l by (simpl; lia).
    replace (11 + length a + 7 - 1 - length (lit "res.status(") - length a) with 6 by (simpl; lia).
    done.
  - intros s n H. pose proof H as (a & Ha & -> & E & _)%tok_status_Some.
    apply (f_equal length) in E. rewrite !length_app in E. simpl in E. lia.
Qed.

Lemma next_error_rule : next_error_re = rule (word "next(error);").
Proof. done. Qed.

Lemma res_json_rule : res_json_re = rule (word "res.json(").
Proof. done. Qed.

Lemma res_status_json_rule :
  res_status_json_re =
  rule (Seq (word "res.status(") (Seq (Plus not_rparen) (word ").json("))).
Proof. done. Qed.

(** ** The shape of the rewritten text *)

Lemma insert_all_app ps ins pre s :
  Forall (fun p => length pre <= p) ps ->
  insert_all ps ins (pre ++ s) =
  pre ++ insert_all (map (fun p => p - length pre) ps) ins s.
Proof.
  induction 1 as [|p ps Hp _ IH]; [done|]. cbn [insert_all map].
  rewrite IH. rewrite take_app_ge, drop_app_ge by done.
  by rewrite <- app_assoc.
Qed.

Lemma group_mk_match_0 str i n l :
  group (mk_match str i n l) 0 = Some (take (n + l) (drop i str)).
Proof. cbn. unfold slice. do 2 f_equal. lia. Qed.

Lemma group_mk_match_1 str i n l :
  group (mk_match str i n l) 1 = Some (take n (drop i str)).
Proof. cbn. unfold slice. do 2 f_equal. lia. Qed.

Lemma group_mk_match_2 str i n l :
  group (mk_match str i n l) 2 = Some (take l (drop (i + n) str)).
Proof. cbn. unfold slice. do 2 f_equal. lia. Qed.

Lemma add_return_mk_match w str i n l :
  add_return w (mk_match str i n l) =
  Some (take n (drop i str)
        ++ (if guarded w (mk_match str i n l) then [] else kw_sp)
        ++ take l (drop (i + n) str)).
Proof.
  unfold add_return. destruct (guarded _ _); cbn [negb].
  - rewrite group_mk_match_0. f_equal. simpl.
    by rewrite <- take_take_drop, drop_drop.
  - by rewrite group_mk_match_1, group_mk_match_2.
Qed.

Lemma take3 (u : text) a n l :
  take (a + n + l) u = take a u ++ take n (drop a u) ++ take l (drop (a + n) u).
Proof.
  rewrite <- (take_take_drop u (a + n) l), <- (take_take_drop u a n).
  by rewrite <- app_assoc.
Qed.

Lemma insert_mid (A1 A2 ins : text) k :
  k = length A1 ->
  take k (A1 ++ A2) ++ ins ++ drop k (A1 ++ A2) = A1 ++ ins ++ A2.
Proof. intros ->. by rewrite take_app_length, drop_app_length. Qed.

Section RuleShape.
Context {body : regex} {tok : text -> option nat} (T : token body tok).

Lemma splice_rule_from w str fuel pos :
  length str - pos < fuel -> pos <= length str ->
  let ps := insertion_points w (iter_loop fuel (rule body) str pos) in
  splice (add_return w) str pos (iter_loop fuel (rule body) str pos) =
    Some (insert_all (map (fun p => p - pos) ps) kw_sp (drop pos str))
  /\ Forall (fun p => pos < p) ps.
Proof.
  intros Hf. revert fuel pos Hf.
  apply (iter_loop_ind T str (fun pos ms =>
    pos <= length str ->
    splice (add_return w) str pos ms =
      Some (insert_all (map (fun p => p - pos) (insertion_points w ms))
              kw_sp (drop pos str))
    /\ Forall (fun p => pos < p) (insertion_points w ms))).
  - intros pos _ _. done.
  - intros pos i n l ms Hpos Hh Hn IH Hle.
    apply (hit_Some T) in Hh as (_ & Hn0 & _ & Hl6 & Hl).
    rewrite length_drop in Hl.
    destruct IH as [IH1 IH2]; [lia|].
    cbn [splice insertion_points].
    change (m_end (mk_match str i n l)) with (i + n + l).
    change (m_start (mk_match str i n l)) with i.
    rewrite add_return_mk_match, IH1. clear IH1.
    set (ps := insertion_points w ms) in *.
    set (u := drop pos str).
    assert (Hu : forall k, pos <= k -> drop k str = drop (k - pos) u).
    { intros k Hk. unfold u. rewrite drop_drop. f_equal. lia. }
    assert (HX : insert_all (map (fun p => p - pos) ps) kw_sp u =
                 take (i + n + l - pos) u ++
                 insert_all (map (fun p => p - (i + n + l)) ps) kw_sp
                   (drop (i + n + l) str)).
    { rewrite <- (take_drop (i + n + l - pos) u) at 1.
      rewrite insert_all_app.
      - rewrite length_take, map_map. unfold u at 2. rewrite length_drop.
        rewrite (Hu (i + n + l)) by lia. f_equal. f_equal.
        apply map_ext. intros p. lia.
      - rewrite length_take. unfold u. rewrite length_drop.
        apply Forall_map. eapply Forall_impl; [exact IH2|].
        simpl. intros p Hp. lia. }
    unfold slice. fold u. rewrite (Hu i), (Hu (i + n)) by lia.
    assert (Hlu : length u = length str - pos) by (unfold u; apply length_drop).
    replace (i + n + l - pos) with (i - pos + n + l) in HX by lia.
    replace (i + n - pos) with (i - pos + n) by lia.
    rewrite take3 in HX.
    destruct (guarded w (mk_match str i n l)).
    + split.
      * f_equal. rewrite HX. by rewrite <- !app_assoc.
      * eapply Forall_impl; [exact IH2|]. simpl. intros p Hp. lia.
    + cbn [start_of assoc mk_match m_groups Nat.eqb fmap option_fmap option_map fst map insert_all].
      fold ps. split.
      * f_equal. rewrite HX.
        rewrite (app_assoc (take (i - pos) u) (take n _)).
        rewrite <- (app_assoc (take (i - pos) u ++ take n _)).
        rewrite insert_mid.
        -- by rewrite <- !app_assoc.
        -- rewrite length_app, !length_take, length_drop. lia.
      * constructor; [lia|].
        eapply Forall_impl; [exact IH2|]. simpl. intros p Hp. lia.
Qed.

End RuleShape.

Lemma insert_all_length ps ins s :
  length (insert_all ps ins s) = length s + length ins * length ps.
Proof.
  induction ps as [|p ps IH]; simpl; [lia|].
  rewrite !length_app, length_take, length_drop. lia.
Qed.

(** ** The matches of a pass *)

Lemma lookup_drop_head (s : text) i c t : drop i s = c :: t -> s !! i = Some c.
Proof.
  intros E. rewrite <- (Nat.add_0_r i), <- lookup_drop, E. done.
Qed.

Section RuleChain.
Context {body : regex} {tok : text -> option nat} (T : token body tok).

Lemma finditer_chain str : chain tok str 0 (finditer (rule body) str).
Proof.
  apply (finditer_ind T str (chain tok str)).
  - intros. by constructor.
  - intros. by constructor.
Qed.

(** The white space of a match is all the white space there is: the
    rule also applies one character earlier when that character is
    white space. *)
Lemma hit_extend str i n l c :
  0 < i -> str !! (i - 1) = Some c -> is_space c = true ->
  hit tok (drop i str) = Some (n, l) ->
  hit tok (drop (i - 1) str) = Some (S n, l).
Proof.
  intros Hi Hc Hs Hh.
  assert (drop (i - 1) str = c :: drop i str) as ->.
  { replace i with (S (i - 1)) at 2 by lia. by apply drop_S. }
  pose proof Hh as (-> & _ & Ht & _)%(hit_Some T).
  unfold hit. cbn [run_len]. rewrite Hs. cbn [Nat.ltb Nat.leb drop].
  by rewrite Ht.
Qed.

Lemma hit_boundary_end str i n l :
  hit tok (drop i str) = Some (n, l) -> boundary str (i + n + l).
Proof.
  intros (-> & _ & Ht & Hl & _)%(hit_Some T). right.
  destruct (tok_last _ _ T _ _ Ht) as (c & Hc & Hs).
  exists c. split; [|done]. rewrite lookup_drop, lookup_drop in Hc.
  rewrite <- Hc. f_equal. lia.
Qed.

Lemma chain_match_ok str pos ms :
  chain tok str pos ms -> boundary str pos -> Forall (match_ok tok str) ms.
Proof.
  induction 1 as [|pos i n l ms Hpos Hh Hn _ IH]; intros Hb; [done|].
  constructor.
  - exists i, n, l. split_and!; [done | done |].
    destruct (decide (i = pos)) as [->|Hne]; [done|].
    right. destruct (lookup_lt_is_Some_2 str (i - 1)) as [c Hc].
    { apply (hit_Some T) in Hh as (_ & ? & _ & _ & Hl).
      rewrite length_drop in Hl. lia. }
    exists c. split; [done|].
    destruct (is_space c) eqn:Hs; [|done].
    eapply hit_extend in Hh; [|lia|done..].
    rewrite Hn in Hh; [done | lia].
  - apply IH. by eapply hit_boundary_end.
Qed.

Lemma finditer_match_ok str :
  Forall (match_ok tok str) (finditer (rule body) str).
Proof. eapply chain_match_ok; [apply finditer_chain | by left]. Qed.

Lemma chain_start_ge str pos ms :
  chain tok str pos ms -> Forall (fun m => pos <= m_start m) ms.
Proof.
  induction 1 as [|pos i n l ms Hpos Hh Hn _ IH]; [done|].
  constructor; [done|]. eapply Forall_impl; [exact IH|].
  simpl. intros m Hm. lia.
Qed.

(** Matches of one pass do not overlap. *)
Lemma chain_disjoint str pos ms m1 m2 :
  chain tok str pos ms -> m1 ∈ ms -> m2 ∈ ms ->
  m1 = m2 \/ m_end m1 <= m_start m2 \/ m_end m2 <= m_start m1.
Proof.
  induction 1 as [|pos i n l ms Hpos Hh Hn Hc IH]; [by intros ?%elem_of_nil|].
  pose proof (chain_start_ge _ _ _ Hc) as Hge. rewrite Forall_forall in Hge.
  intros [->|H1]%elem_of_cons [->|H2]%elem_of_cons.
  - by left.
  - right; left. by apply Hge.
  - right; right. by apply Hge.
  - by apply IH.
Qed.

End RuleChain.

(** ** Insertion points *)

Lemma elem_of_insertion_points w ms p :
  p ∈ insertion_points w ms <->
  exists m, m ∈ ms /\ guarded w m = false /\ start_of m 2 = Some p.
Proof.
  induction ms as [|m ms IH]; cbn [insertion_points].
  - split; [by intros ?%elem_of_nil | by intros (m & ?%elem_of_nil & _)].
  - destruct (guarded w m) eqn:Hg.
    + rewrite IH. split.
      * intros (m' & ? & ? & ?). exists m'. split_and!; [by right | done | done].
      * intros (m' & [->|?]%elem_of_cons & ? & ?); [congruence|eauto].
    + destruct (start_of m 2) as [q|] eqn:Hq.
      * rewrite elem_of_cons, IH. split.
        -- intros [->|(m' & ? & ? & ?)].
           ++ exists m. split_and!; [by left | done | done].
           ++ exists m'. split_and!; [by right | done | done].
        -- intros (m' & [->|?]%elem_of_cons & ? & ?).
           ++ left. congruence.
           ++ right. eauto.
      * rewrite IH. split.
        -- intros (m' & ? & ? & ?). exists m'. split_and!; [by right | done | done].
        -- intros (m' & [->|?]%elem_of_cons & ? & ?); [congruence|eauto].
Qed.

Lemma start_of_mk_match_2 str i n l : start_of (mk_match str i n l) 2 = Some (i + n).
Proof. done. Qed.

Section RulePoints.
Context {body : regex} {tok : text -> option nat} (T : token body tok).

Lemma chain_points str pos ms w :
  chain tok str pos ms ->
  StronglySorted lt (insertion_points w ms) /\
  Forall (fun p => pos < p <= length str) (insertion_points w ms).
Proof.
  induction 1 as [|pos i n l ms Hpos Hh Hn _ [IH1 IH2]]; cbn [insertion_points].
  - split; constructor.
  - apply (hit_Some T) in Hh as (_ & ? & _ & ? & Hl). rewrite length_drop in Hl.
    assert (Forall (fun p => pos < p <= length str) (insertion_points w ms)) as IH3.
    { eapply Forall_impl; [exact IH2|]. simpl. intros p Hp. lia. }
    destruct (guarded w _); [done|]. rewrite start_of_mk_match_2.
    split.
    + constructor; [done|]. eapply Forall_impl; [exact IH2|].
      simpl. intros p Hp. lia.
    + constructor; [lia | done].
Qed.

Lemma finditer_points_sorted str w :
  StronglySorted lt (insertion_points w (finditer (rule body) str)).
Proof. eapply chain_points, (finditer_chain T). Qed.

Lemma finditer_points_bound str w :
  Forall (fun p => 0 < p <= length str)
    (insertion_points w (finditer (rule body) str)).
Proof. eapply chain_points, (finditer_chain T). Qed.

(** What a pass returns: the text with [return ] put in at the
    insertion points, and nothing else changed. *)
Lemma re_sub_rule w str :
  re_sub (rule body) (add_return w) str =
  Some (insert_all (insertion_points w (finditer (rule body) str)) kw_sp str).
Proof.
  unfold re_sub, finditer.
  rewrite sub_loop_splice by lia.
  destruct (splice_rule_from T w str (S (length str)) 0) as [-> _]; [lia..|].
  f_equal. rewrite drop_0. f_equal.
  rewrite <- (map_id (insertion_points _ _)) at 2.
  apply map_ext. intros p. simpl. lia.
Qed.

End RulePoints.

(** ** Sorted insertions *)

Lemma insert_all_take ps ins (s : text) p :
  p <= length s -> Forall (fun q => p <= q) ps ->
  take p (insert_all ps ins s) = take p s.
Proof.
  intros Hp. induction 1 as [|q ps Hq _ IH]; [done|]. cbn [insert_all].
  rewrite take_app_le.
  - by rewrite take_take, Nat.min_l.
  - rewrite length_take, insert_all_length. lia.
Qed.

Lemma insertions_trans ins k1 k2 s t u :
  insertions ins k1 s t -> insertions ins k2 t u ->
  insertions ins (k1 + k2) s u.
Proof.
  intros H1 H2. induction H2 as [|k t a b _ IH].
  - by rewrite Nat.add_0_r.
  - rewrite Nat.add_succ_r. constructor. by apply IH.
Qed.

Lemma insertions_sublist ins k s t : insertions ins k s t -> s `sublist_of` t.
Proof.
  induction 1 as [|k s a b _ IH]; [done|].
  etrans; [exact IH|]. apply sublist_app; [done|]. by apply sublist_inserts_l.
Qed.

Lemma insertions_length ins k s t :
  insertions ins k s t -> length t = length s + length ins * k.
Proof.
  induction 1 as [|k s a b _ IH]; [lia|].
  rewrite !length_app in *. lia.
Qed.

Lemma insert_all_insertions ps ins (s : text) :
  insertions ins (length ps) s (insert_all ps ins s).
Proof.
  induction ps as [|p ps IH]; cbn [insert_all length]; [constructor|].
  constructor. by rewrite take_drop.
Qed.

(** ** The two scripts, pass by pass *)

Lemma rewrite_next T :
  FixCatchBlocks.rewrite T = Some (insert_all (points_next T) kw_sp T).
Proof. apply (re_sub_rule token_next). Qed.

Lemma rewrite_json T :
  FixTsErrors.rewrite_json T = Some (insert_all (points_json T) kw_sp T).
Proof. apply (re_sub_rule token_json). Qed.

Lemma rewrite_status T :
  FixTsErrors.rewrite_status T = Some (insert_all (points_status T) kw_sp T).
Proof. apply (re_sub_rule token_status). Qed.

Lemma rewrite_ts T :
  FixTsErrors.rewrite T =
  Some (insert_all (points_status (insert_all (points_json T) kw_sp T)) kw_sp
          (insert_all (points_json T) kw_sp T)).
Proof. unfold FixTsErrors.rewrite. by rewrite rewrite_json, rewrite_status. Qed.

(** C7: the rewritten text is the input with [return ] put in right
    before the call token of every unguarded match; the white space of
    the match and every other character stay where they were. *)
Theorem frame_property :
  (forall T, exists out,
      FixCatchBlocks.rewrite T = Some out /\ pass next_error_re 30 T out) /\
  (forall T, exists T1 out,
      FixTsErrors.rewrite_json T = Some T1 /\ pass res_json_re 20 T T1 /\
      FixTsErrors.rewrite T = Some out /\ pass res_status_json_re 20 T1 out).
Proof.
  split.
  - intros T. eexists. split; [apply rewrite_next|].
    exists (points_next T). split_and!; [|intros; apply elem_of_insertion_points|done].
    apply (finditer_points_sorted token_next).
  - intros T. eexists _, _. split_and!; [apply rewrite_json| |apply rewrite_ts|].
    + exists (points_json T). split_and!; [|intros; apply elem_of_insertion_points|done].
      apply (finditer_points_sorted token_json).
    + eexists. split_and!; [|intros; apply elem_of_insertion_points|done].
      apply (finditer_points_sorted token_status).
Qed.

(** C10: each rewrite only inserts copies of the seven characters of
    [return ]: the input is a subsequence of the output and the output
    is longer by seven characters for each insertion. *)
Theorem only_insertions :
  (forall T, exists out,
      FixCatchBlocks.rewrite T = Some out /\
      insertions kw_sp (length (points_next T)) T out /\
      T `sublist_of` out /\
      length out = length T + 7 * length (points_next T)) /\
  (forall T, exists T1 out,
      FixTsErrors.rewrite_json T = Some T1 /\
      FixTsErrors.rewrite T = Some out /\
      let k := length (points_json T) + length (points_status T1) in
      insertions kw_sp k T out /\
      T `sublist_of` out /\
      length out = length T + 7 * k).
Proof.
  split.
  - intros T. eexists. split; [apply rewrite_next|].
    pose proof (insert_all_insertions (points_next T) kw_sp T) as H.
    split_and!; [done | by eapply insertions_sublist |].
    by apply insertions_length in H.
  - intros T. eexists _, _.
    split; [apply rewrite_json|]. split; [apply rewrite_ts|]. cbv zeta.
    pose proof (insertions_trans _ _ _ _ _ _
           (insert_all_insertions (points_json T) kw_sp T)
           (insert_all_insertions
              (points_status (insert_all (points_json T) kw_sp T)) kw_sp _)) as H.
    split_and!; [done | by eapply insertions_sublist |].
    by apply insertions_length in H.
Qed.

(** ** More on strings *)

Lemma ends_with_suffix suf s : ends_with suf s = true <-> suf `suffix_of` s.
Proof.
  unfold ends_with. rewrite starts_with_prefix. symmetry.
  apply suffix_prefix_reverse.
Qed.

Lemma contains_spec n h :
  contains n h = true <-> exists a b, h = a ++ n ++ b.
Proof.
  induction h as [|c h IH]; cbn [contains]; rewrite orb_true_iff.
  - split.
    + intros [[b E]%starts_with_prefix|]; [|done]. by exists [], b.
    + intros (a & b & E). left. apply starts_with_prefix.
      destruct a; [by exists b | done].
  - rewrite IH. split.
    + intros [[b E]%starts_with_prefix|(a & b & ->)].
      * by exists [], b.
      * by exists (c :: a), b.
    + intros (a & b & E). destruct a as [|x a].
      * left. apply starts_with_prefix. by exists b.
      * right. injection E as -> ->. eauto.
Qed.

Lemma contains_suffix n h : n `suffix_of` h -> contains n h = true.
Proof. intros [a ->]. apply contains_spec. exists a, []. by rewrite app_nil_r. Qed.

Lemma rstrip_space s : all_space s -> rstrip s = [].
Proof. induction 1 as [|c s Hc _ IH]; [done|]. simpl. by rewrite IH, Hc. Qed.

Lemma rstrip_app_space a s : all_space s -> rstrip (a ++ s) = rstrip a.
Proof.
  intros Hs. induction a as [|c a IH]; simpl.
  - by apply rstrip_space.
  - by rewrite IH.
Qed.

Lemma rstrip_snoc a c : is_space c = false -> rstrip (a ++ [c]) = a ++ [c].
Proof.
  intros Hc. induction a as [|x a IH]; simpl.
  - by rewrite Hc.
  - rewrite IH. by destruct (a ++ [c]) eqn:E; [destruct a|].
Qed.

(** The text before a boundary has no white space at its end. *)
Lemma rstrip_boundary str i :
  i <= length str -> boundary str i -> rstrip (take i str) = take i str.
Proof.
  intros Hi [->|(c & Hc & Hs)]; [done|].
  destruct i as [|i]; [done|].
  replace (S i - 1) with i in Hc by lia.
  rewrite (take_S_r _ _ _ Hc). by apply rstrip_snoc.
Qed.

Lemma slice_take_drop (s : text) a b : slice s a b = drop a (take b s).
Proof.
  unfold slice. destruct (decide (a <= b)).
  - rewrite take_drop_commute. f_equal. f_equal. lia.
  - replace (b - a) with 0 by lia. rewrite take_0.
    symmetry. apply drop_ge. rewrite length_take. lia.
Qed.

(** The window of a match holds [return] when [return] ends right
    where the match starts. *)
Lemma window_suffix w str i n l :
  6 <= w -> i <= length str -> kw `suffix_of` take i str ->
  guarded w (mk_match str i n l) = true.
Proof.
  intros Hw Hi [a E]. unfold guarded, window. cbn [m_string m_start mk_match].
  rewrite Nat.max_r by lia. rewrite slice_take_drop, E.
  apply contains_suffix.
  assert (length (take i str) = length a + 6) as Hl by (by rewrite E, length_app).
  rewrite length_take in Hl.
  rewrite drop_app_le by lia. by apply suffix_app_r.
Qed.

(** ** White space before the token *)

Section RuleFacts.
Context {body : regex} {tok : text -> option nat} (T : token body tok).

Lemma match_ok_facts str m :
  match_ok tok str m ->
  exists i n l, m = mk_match str i n l /\ boundary str i /\
    0 < n /\ 6 <= l /\ i + n + l <= length str /\
    all_space (take n (drop i str)) /\
    tok (drop (i + n) str) = Some l.
Proof.
  intros (i & n & l & -> & Hh & Hb).
  apply (hit_Some T) in Hh as (Hn & ? & Ht & ? & Hl).
  rewrite length_drop in Hl. rewrite drop_drop in Ht.
  exists i, n, l. split_and!; try done; try lia.
  apply Forall_forall. intros c [j Hj]%list_elem_of_lookup.
  apply lookup_take_Some in Hj as [Hj ?].
  eapply run_len_all; [|done]. lia.
Qed.

Lemma finditer_facts str m :
  m ∈ finditer (rule body) str ->
  exists i n l, m = mk_match str i n l /\ boundary str i /\
    0 < n /\ 6 <= l /\ i + n + l <= length str /\
    all_space (take n (drop i str)) /\
    tok (drop (i + n) str) = Some l.
Proof.
  intros Hm. apply match_ok_facts.
  pose proof (finditer_match_ok T str) as H. rewrite Forall_forall in H. auto.
Qed.

(** Group 1 of a match is never empty: the character before the
    token is white space. *)
Lemma finditer_space_before str m p :
  m ∈ finditer (rule body) str -> start_of m 2 = Some p ->
  0 < p /\ exists c, str !! (p - 1) = Some c /\ is_space c = true.
Proof.
  intros (i & n & l & -> & _ & Hn & _ & Hl & Hs & _)%finditer_facts.
  rewrite start_of_mk_match_2. intros [= <-]. split; [lia|].
  destruct (lookup_lt_is_Some_2 str (i + n - 1)) as [c Hc]; [lia|].
  exists c. split; [done|]. unfold all_space in Hs. rewrite Forall_forall in Hs.
  apply Hs. apply list_elem_of_lookup. exists (n - 1).
  rewrite lookup_take_lt by lia. rewrite lookup_drop. rewrite <- Hc. f_equal. lia.
Qed.

Lemma boundary_not_matched str p w :
  boundary str p ->
  (forall m, m ∈ finditer (rule body) str -> start_of m 2 <> Some p) /\
  p ∉ insertion_points w (finditer (rule body) str).
Proof.
  intros Hb.
  assert (forall m, m ∈ finditer (rule body) str -> start_of m 2 <> Some p) as H.
  { intros m Hm Hp. destruct (finditer_space_before _ _ _ Hm Hp) as (? & c & Hc & Hs).
    destruct Hb as [->|(c' & Hc' & Hs')]; [lia|]. congruence. }
  split; [done|]. intros (m & Hm & _ & Hp)%elem_of_insertion_points.
  by eapply H.
Qed.

Lemma group_1_space str m :
  m ∈ finditer (rule body) str ->
  exists g1, group m 1 = Some g1 /\ g1 <> [] /\ all_space g1.
Proof.
  intros (i & n & l & -> & _ & Hn & _ & Hl & Hs & _)%finditer_facts.
  rewrite group_mk_match_1. eexists. split_and!; [done | | done].
  intros E. apply (f_equal length) in E.
  rewrite length_take, length_drop in E. simpl in E. lia.
Qed.

End RuleFacts.

(** C9: group 1 of every match is a non-empty run of white space, so a
    call that does not follow a white-space character (it stands at the
    start of the text, or right after another character) is not matched
    by any rule and gets no keyword. *)
Theorem whitespace_required r w T :
  (r, w) ∈ rules ->
  (forall m, m ∈ finditer r T ->
     exists g1, group m 1 = Some g1 /\ g1 <> [] /\ all_space g1) /\
  (forall p, boundary T p ->
     (forall m, m ∈ finditer r T -> start_of m 2 <> Some p) /\
     p ∉ insertion_points w (finditer r T)).
Proof.
  unfold rules. rewrite !elem_of_cons, elem_of_nil.
  intros [[= -> ->]|[[= -> ->]|[[= -> ->]|[]]]].
  - split; [apply (group_1_space token_next) |
            intros p; apply (boundary_not_matched token_next)].
  - split; [apply (group_1_space token_json) |
            intros p; apply (boundary_not_matched token_json)].
  - split; [apply (group_1_space token_status) |
            intros p; apply (boundary_not_matched token_status)].
Qed.

Lemma whitespace_required_witness :
  (forall m, m ∈ finditer next_error_re (lit "x.next(error);") ->
     exists g1, group m 1 = Some g1 /\ g1 <> [] /\ all_space g1) /\
  (forall m, m ∈ finditer next_error_re (lit "x.next(error);") ->
             start_of m 2 <> Some 2) /\
  2 ∉ insertion_points 30 (finditer next_error_re (lit "x.next(error);")).
Proof.
  destruct (whitespace_required next_error_re 30 (lit "x.next(error);"))
    as [H1 H2].
  - unfold rules. left.
  - split; [exact H1|]. apply H2. right. exists 46%N. split; reflexivity.
Defined.

(** ** Running a script on one file *)

Lemma fix_catch_blocks_run path T out w :
  files w !! path = Some T -> FixCatchBlocks.rewrite T = Some out ->
  FixCatchBlocks.fix_catch_blocks path w =
  if decide (out = T) then Some (false, w)
  else if decide (path ∈ unwritable w) then None
  else Some (true, written path out w).
Proof.
  intros Hf Hr. unfold FixCatchBlocks.fix_catch_blocks, mbind, io_bind, read_file.
  rewrite Hf. unfold raise_or. rewrite Hr. unfold text_eqb.
  destruct (decide (out = T)) as [->|Hne].
  - by rewrite bool_decide_eq_true_2.
  - rewrite bool_decide_eq_false_2 by done. cbn [negb]. unfold write_file.
    by destruct (decide (path ∈ unwritable w)).
Qed.

Lemma fix_controller_returns_run path T out w :
  files w !! path = Some T -> FixTsErrors.rewrite T = Some out ->
  FixTsErrors.fix_controller_returns path w =
  if decide (out = T) then Some (false, w)
  else if decide (path ∈ unwritable w) then None
  else Some (true, written path out w).
Proof.
  intros Hf Hr. unfold FixTsErrors.fix_controller_returns, mbind, io_bind, read_file.
  rewrite Hf. unfold raise_or. rewrite Hr. unfold text_eqb.
  destruct (decide (out = T)) as [->|Hne].
  - by rewrite bool_decide_eq_true_2.
  - rewrite bool_decide_eq_false_2 by done. cbn [negb]. unfold write_file.
    by destruct (decide (path ∈ unwritable w)).
Qed.

(** ** Texts that are fixed already *)

Lemma insertion_points_guarded w ms :
  Forall (fun m => guarded w m = true) ms -> insertion_points w ms = [].
Proof. induction 1 as [|m ms Hm _ IH]; [done|]. simpl. by rewrite Hm. Qed.

Section RuleFixed.
Context {body : regex} {tok : text -> option nat} (T : token body tok).

Lemma already_fixed_guarded str w m :
  6 <= w -> already_fixed tok str ->
  m ∈ finditer (rule body) str -> guarded w m = true.
Proof.
  intros Hw Hfix (i & n & l & -> & Hb & Hn & _ & Hl & Hs & Ht)%(finditer_facts T).
  specialize (Hfix (i + n)).
  destruct (lookup_lt_is_Some_2 str (i + n - 1)) as [c Hc]; [lia|].
  assert (is_space c = true) as Hc'.
  { unfold all_space in Hs. rewrite Forall_forall in Hs. apply Hs.
    apply list_elem_of_lookup. exists (n - 1).
    rewrite lookup_take_lt by lia. rewrite lookup_drop, <- Hc. f_equal. lia. }
  unfold call_at, return_before in Hfix.
  destruct (i + n) as [|q] eqn:E; [lia|].
  replace (S q - 1) with q in Hc by lia. rewrite Hc, Ht in Hfix.
  specialize (Hfix Hc'). rewrite <- E in Hfix.
  rewrite <- take_take_drop in Hfix.
  rewrite rstrip_app_space in Hfix by done.
  rewrite rstrip_boundary in Hfix by (done || lia).
  apply ends_with_suffix in Hfix.
  apply window_suffix; [done | lia | done].
Qed.

Lemma already_fixed_no_points str w :
  6 <= w -> already_fixed tok str ->
  insertion_points w (finditer (rule body) str) = [].
Proof.
  intros Hw Hfix. apply insertion_points_guarded, Forall_forall.
  intros m Hm. by eapply already_fixed_guarded.
Qed.

End RuleFixed.

(** C1: a text where [return] stands before every white-space-preceded
    call of the script's rules is a fixed point: the rewrite returns it
    unchanged, makes no insertion, and the script reports no fix and
    leaves the world as it was. *)
Theorem fixed_point :
  (forall T, already_fixed tok_next T ->
     FixCatchBlocks.rewrite T = Some T /\ points_next T = [] /\
     forall path w, files w !! path = Some T ->
       FixCatchBlocks.fix_catch_blocks path w = Some (false, w)) /\
  (forall T, already_fixed tok_json T -> already_fixed tok_status T ->
     FixTsErrors.rewrite T = Some T /\
     points_json T = [] /\ points_status T = [] /\
     forall path w, files w !! path = Some T ->
       FixTsErrors.fix_controller_returns path w = Some (false, w)).
Proof.
  split.
  - intros T H.
    assert (points_next T = []) as Hp
      by (apply (already_fixed_no_points token_next); [lia | done]).
    assert (FixCatchBlocks.rewrite T = Some T) as Hr by (by rewrite rewrite_next, Hp).
    split_and!; [done | done |]. intros path w Hf.
    rewrite (fix_catch_blocks_run path T T w) by done. by rewrite decide_True.
  - intros T H1 H2.
    assert (points_json T = []) as Hp1
      by (apply (already_fixed_no_points token_json); [lia | done]).
    assert (points_status T = []) as Hp2
      by (apply (already_fixed_no_points token_status); [lia | done]).
    assert (FixTsErrors.rewrite T = Some T) as Hr.
    { rewrite rewrite_ts, Hp1. cbn [insert_all]. by rewrite Hp2. }
    split_and!; [done | done | done |]. intros path w Hf.
    rewrite (fix_controller_returns_run path T T w) by done. by rewrite decide_True.
Qed.

Lemma fixed_point_witness :
  (FixCatchBlocks.rewrite (lit "  return next(error);") =
     Some (lit "  return next(error);") /\
   points_next (lit "  return next(error);") = [] /\
   forall path w, files w !! path = Some (lit "  return next(error);") ->
     FixCatchBlocks.fix_catch_blocks path w = Some (false, w)) /\
  (FixTsErrors.rewrite (lit " return res.status(404).json(e);") =
     Some (lit " return res.status(404).json(e);") /\
   points_json (lit " return res.status(404).json(e);") = [] /\
   points_status (lit " return res.status(404).json(e);") = [] /\
   forall path w, files w !! path = Some (lit " return res.status(404).json(e);") ->
     FixTsErrors.fix_controller_returns path w = Some (false, w)).
Proof.
  split.
  - apply (proj1 fixed_point). fixed_by_cases 25.
  - apply (proj2 fixed_point); fixed_by_cases 40.
Defined.

(** ** No doubled keyword *)

Lemma insert_all_split ps1 ps2 ins (s : text) o :
  o <= length s ->
  Forall (fun q => q <= o) ps1 -> Forall (fun q => o <= q) ps2 ->
  insert_all (ps1 ++ ps2) ins s =
  insert_all ps1 ins (take o s) ++
  insert_all (map (fun q => q - o) ps2) ins (drop o s).
Proof.
  intros Ho H1 H2. induction H1 as [|q ps1 Hq _ IH]; cbn [app insert_all].
  - rewrite <- (take_drop o s) at 1. rewrite insert_all_app.
    + by rewrite length_take, Nat.min_l.
    + rewrite length_take. eapply Forall_impl; [exact H2|]. intros; simpl in *; lia.
  - rewrite IH.
    assert (q <= length (insert_all ps1 ins (take o s))).
    { rewrite insert_all_length, length_take. lia. }
    rewrite take_app_le, drop_app_le by done. by rewrite <- !app_assoc.
Qed.

Lemma sorted_lookup_lt (ps : list nat) k p q :
  StronglySorted lt ps -> ps !! k = Some p ->
  (q ∈ take k ps -> q < p) /\ (q ∈ drop (S k) ps -> p < q).
Proof.
  intros Hs. revert k. induction Hs as [|x ps Hs IH Hx]; intros k; [done|].
  destruct k as [|k]; simpl.
  - intros [= ->]. split; [by intros ?%elem_of_nil|].
    rewrite drop_0. rewrite Forall_forall in Hx. apply Hx.
  - intros Hk. destruct (IH _ Hk) as [IH1 IH2]. split; [|done].
    intros [->|?]%elem_of_cons; [|auto].
    rewrite Forall_forall in Hx. apply Hx. by eapply list_elem_of_lookup_2.
Qed.

(** The text before the [k]-th insertion point, in the output. *)
Lemma insert_all_at ps ins (s : text) k p :
  StronglySorted lt ps -> p <= length s -> ps !! k = Some p ->
  insert_all ps ins s =
  insert_all (take k ps) ins (take p s) ++ ins ++
  insert_all (map (fun q => q - p) (drop (S k) ps)) ins (drop p s).
Proof.
  intros Hs Hp Hk.
  rewrite <- (take_drop_middle ps k p Hk) at 1.
  rewrite (insert_all_split _ _ _ _ p); [|done|..].
  - f_equal. cbn [map insert_all]. rewrite Nat.sub_diag, take_0, drop_0. done.
  - apply Forall_forall. intros q Hq.
    apply (sorted_lookup_lt ps k p q Hs Hk) in Hq. lia.
  - constructor; [done|]. apply Forall_forall. intros q Hq.
    apply (sorted_lookup_lt ps k p q Hs Hk) in Hq. lia.
Qed.

Lemma suffix_app_short (a b c : text) :
  a `suffix_of` b ++ c -> length a <= length c -> a `suffix_of` c.
Proof.
  intros [k E] Hl.
  assert (length b <= length k) as Hk.
  { apply (f_equal length) in E. rewrite !length_app in E. lia. }
  exists (drop (length b) k).
  apply (f_equal (drop (length b))) in E.
  rewrite drop_app_length in E. rewrite E. by rewrite drop_app_le.
Qed.

(** If white space [ws] follows a boundary, a text that ends there with
    [return] and white space has [return] right before [ws]. *)
Lemma doubled_boundary (a ws : text) :
  (a = [] \/ exists a' c, a = a' ++ [c] /\ is_space c = false) ->
  all_space ws -> doubled (a ++ ws) -> kw `suffix_of` a.
Proof.
  intros Ha Hws (pre & ws' & E & _ & Hws').
  apply (f_equal rstrip) in E.
  rewrite rstrip_app_space in E by done.
  rewrite (app_assoc pre), rstrip_app_space in E by done.
  change kw with (lit "retur" ++ [110%N]) in E.
  rewrite (app_assoc pre), rstrip_snoc in E by done.
  destruct Ha as [->|(a' & c & -> & Hc)].
  - simpl in E. by destruct pre.
  - rewrite rstrip_snoc in E by done. rewrite E.
    rewrite <- app_assoc. by apply suffix_app_r.
Qed.

(** Insertions that end six characters or more before a boundary leave
    the text before the boundary without a new [return] at its end. *)
Lemma insert_before_boundary ps ins (s : text) i n :
  i + n <= length s ->
  all_space (take n (drop i s)) ->
  boundary s i ->
  Forall (fun q => q + 6 <= i) ps ->
  ~ kw `suffix_of` take i s ->
  ~ doubled (insert_all ps ins (take (i + n) s)).
Proof.
  intros Hlen Hws Hb Hps Hkw Hd. apply Hkw. clear Hkw.
  rewrite <- (app_nil_r ps) in Hd.
  rewrite (insert_all_split _ _ _ _ (i - 6)) in Hd.
  2:{ rewrite length_take. lia. }
  2:{ eapply Forall_impl; [exact Hps|]. intros; simpl in *; lia. }
  2:{ constructor. }
  cbn [map insert_all] in Hd.
  rewrite <- take_take_drop in Hd.
  rewrite drop_app_le in Hd by (rewrite length_take; lia).
  rewrite take_app_le in Hd by (rewrite length_take; lia).
  rewrite take_take, Nat.min_l in Hd by lia.
  rewrite app_assoc in Hd.
  assert (kw `suffix_of` insert_all ps ins (take (i - 6) s) ++ drop (i - 6) (take i s)) as Hsuf.
  { revert Hd. apply doubled_boundary; [|done].
    destruct i as [|i].
    - left. destruct ps as [|q ps]; [done|].
      apply Forall_cons in Hps as [? _]. lia.
    - right. destruct Hb as [?|(c & Hc & Hs)]; [done|].
      replace (S i - 1) with i in Hc by lia.
      rewrite (take_S_r _ _ _ Hc).
      rewrite drop_app_le by (rewrite length_take; lia).
      eexists _, c. split; [|done]. by rewrite app_assoc. }
  destruct (decide (6 <= i)) as [H6|H6].
  - apply suffix_app_short in Hsuf.
    + etrans; [exact Hsuf|]. apply suffix_drop.
    + rewrite length_drop, length_take. simpl. lia.
  - destruct ps as [|q ps].
    + cbn [insert_all] in Hsuf. replace (i - 6) with 0 in Hsuf by lia.
      by rewrite take_0, drop_0 in Hsuf.
    + apply Forall_cons in Hps as [? _]. lia.
Qed.

Section RuleDouble.
Context {body : regex} {tok : text -> option nat} (T : token body tok).

(** Insertion points of the same pass are six characters or more
    before the white space of any later match. *)
Lemma points_before str w i n l q :
  mk_match str i n l ∈ finditer (rule body) str ->
  q ∈ insertion_points w (finditer (rule body) str) ->
  q < i + n -> q + 6 <= i.
Proof.
  intros Hm (m' & Hm' & _ & Hq)%elem_of_insertion_points Hlt.
  pose proof Hm' as (i' & n' & l' & -> & _ & ? & ? & _)%(finditer_facts T).
  rewrite start_of_mk_match_2 in Hq. injection Hq as <-.
  pose proof (finditer_chain T str) as Hc.
  destruct (chain_disjoint _ _ _ _ _ Hc Hm Hm') as [E|[E|E]];
    cbn [m_start m_end mk_match] in E.
  - apply (f_equal (fun m => start_of m 2)) in E.
    rewrite !start_of_mk_match_2 in E. injection E as E. lia.
  - lia.
  - lia.
Qed.

Lemma pass_no_double str w k p :
  6 <= w ->
  insertion_points w (finditer (rule body) str) !! k = Some p ->
  exists before after,
    re_sub (rule body) (add_return w) str = Some (before ++ kw_sp ++ after) /\
    length before = p + 7 * k /\
    ~ doubled before.
Proof.
  intros Hw Hk. set (ps := insertion_points w (finditer (rule body) str)) in *.
  pose proof (finditer_points_sorted T str w) as Hs. fold ps in Hs.
  pose proof (finditer_points_bound T str w) as Hbd. fold ps in Hbd.
  rewrite Forall_forall in Hbd.
  pose proof (list_elem_of_lookup_2 _ _ _ Hk) as Hp.
  pose proof (Hbd p Hp) as Hpl.
  rewrite (re_sub_rule T). fold ps.
  rewrite (insert_all_at ps kw_sp str k p Hs) by (done || lia).
  eexists _, _. split; [done|]. split.
  - rewrite insert_all_length, length_take, length_take.
    apply lookup_lt_Some in Hk. simpl. lia.
  - apply elem_of_insertion_points in Hp as (m & Hm & Hg & Hp).
    pose proof Hm as (i & n & l & -> & Hb & ? & ? & ? & Hws & _)%(finditer_facts T).
    rewrite start_of_mk_match_2 in Hp. injection Hp as <-.
    apply insert_before_boundary; [lia | done | done | |].
    + apply Forall_forall. intros q Hq.
      pose proof (proj1 (sorted_lookup_lt ps k (i + n) q Hs Hk) Hq).
      apply (points_before str w i n l); [done | | done].
      apply elem_of_take in Hq as (j & Hj & _).
      by eapply list_elem_of_lookup_2.
    + intros Hkw. rewrite window_suffix in Hg; [done | done | lia | done].
Qed.

End RuleDouble.

(** *** The keywords of the first pass after the second pass *)

Lemma sorted_split (ps : list nat) o :
  StronglySorted lt ps ->
  exists a b, ps = a ++ b /\
    Forall (fun q => q < o) a /\ Forall (fun q => o <= q) b /\
    length a = count_below o ps.
Proof.
  induction 1 as [|x ps Hs (a & b & E & Ha & Hb & Hl) Hx].
  - by exists [], [].
  - cbn [count_below]. destruct (x <? o) eqn:Hlt.
    + apply Nat.ltb_lt in Hlt. exists (x :: a), b.
      split_and!; [by rewrite E | by constructor | done | simpl; lia].
    + apply Nat.ltb_ge in Hlt. exists [], (x :: ps).
      split_and!; [done | done | | ].
      * constructor; [done|]. eapply Forall_impl; [exact Hx|].
        intros; simpl in *; lia.
      * destruct a as [|y a]; [simpl in *; lia|].
        apply Forall_cons in Ha as [Hy _].
        rewrite E in Hx. apply Forall_cons in Hx as [Hxy _]. lia.
Qed.

(** An insertion point of the [res.status(...).json(] pass: white space
    before it, [res.status(] from it on. *)
Lemma points_status_facts s q :
  q ∈ points_status s ->
  (0 < q /\ exists c, s !! (q - 1) = Some c /\ is_space c = true) /\
  lit "res.status(" `prefix_of` drop q s.
Proof.
  intros (m & Hm & _ & Hq)%elem_of_insertion_points. split.
  - by eapply (finditer_space_before token_status).
  - apply (finditer_facts token_status) in Hm
      as (i & n & l & -> & _ & _ & _ & _ & _ & Ht).
    rewrite start_of_mk_match_2 in Hq. injection Hq as <-.
    apply tok_status_Some in Ht as (a & _ & _ & E & _).
    rewrite E. by apply prefix_app_r.
Qed.

Lemma prefix_lookup (p s : text) j c :
  p `prefix_of` s -> p !! j = Some c -> s !! j = Some c.
Proof. intros [k ->] H. by apply lookup_app_l_Some. Qed.

(** The second pass of [fix_controller_returns] on a text where a
    [return ] stands after white space [W]: the pass puts no [return]
    before [W]. *)
Lemma status_pass_keeps X W a :
  W <> [] -> all_space W ->
  (X = [] \/ exists X' c, X = X' ++ [c] /\ is_space c = false) ->
  ~ kw `suffix_of` X ->
  let s := X ++ W ++ kw_sp ++ a in
  let o := length X + length W in
  exists before after,
    insert_all (points_status s) kw_sp s = before ++ kw_sp ++ after /\
    length before = o + 7 * count_below o (points_status s) /\
    ~ doubled before.
Proof.
  intros HW Hws HX Hkw s o.
  pose proof (finditer_points_sorted token_status s 20) as Hs.
  fold (points_status s) in Hs.
  destruct (sorted_split (points_status s) o Hs) as (pa & pb & E & Ha & Hb & Hl).
  assert (Hin : forall q, q ∈ pa ++ pb -> q ∈ points_status s) by (by rewrite E).
  assert (Hlen : length s = o + 7 + length a).
  { unfold s, o. rewrite !length_app. simpl. lia. }
  assert (Hso : forall j c, W !! j = Some c -> s !! (length X + j) = Some c).
  { intros j c Hj. unfold s. rewrite lookup_app_r by lia.
    replace (length X + j - length X) with j by lia. by apply lookup_app_l_Some. }
  assert (Hsk : forall j c, kw_sp !! j = Some c -> s !! (o + j) = Some c).
  { intros j c Hj. unfold s, o. rewrite lookup_app_r by lia.
    rewrite lookup_app_r by lia.
    replace (length X + length W + j - length X - length W) with j by lia.
    by apply lookup_app_l_Some. }
  (* points from [o] on are at [o + 7] or later *)
  assert (Hb' : Forall (fun q => o + 7 <= q) pb).
  { apply Forall_forall. intros q Hq. rewrite Forall_forall in Hb.
    pose proof (Hb q Hq) as Hge.
    destruct (points_status_facts s q) as [(Hq0 & c & Hc & Hcs) Hpre].
    { apply Hin, elem_of_app. by right. }
    destruct (decide (o + 7 <= q)) as [|Hlt]; [done|]. exfalso.
    destruct (decide (q = o)) as [->|Hne].
    - pose proof (prefix_lookup _ _ 2 115%N Hpre eq_refl) as H2.
      rewrite lookup_drop in H2. rewrite (Hsk 2 116%N eq_refl) in H2. done.
    - assert (exists j, j < 6 /\ q - 1 = o + j) as (j & Hj & Ej) by (exists (q - 1 - o); lia).
      rewrite Ej in Hc.
      destruct (lookup_lt_is_Some_2 kw j) as [c' Hc']; [simpl; lia|].
      assert (kw_sp !! j = Some c') as Hc''.
      { change kw_sp with (kw ++ [32%N]). by apply lookup_app_l_Some. }
      rewrite (Hsk _ _ Hc'') in Hc. injection Hc as ->.
      assert (no_space kw = true) as Hns by done.
      by rewrite (no_space_lookup _ _ _ Hns Hc') in Hcs. }
  (* points before [o] are six characters or more before [W] *)
  assert (Ha' : Forall (fun q => q + 6 <= length X) pa).
  { apply Forall_forall. intros q Hq. rewrite Forall_forall in Ha.
    pose proof (Ha q Hq) as Hlt.
    destruct (points_status_facts s q) as [_ Hpre].
    { apply Hin, elem_of_app. by left. }
    destruct (decide (q + 6 <= length X)) as [|Hgt]; [done|]. exfalso.
    assert (exists j, j < 11 /\ q + j < o /\ length X <= q + j) as (j & Hj & Hjo & HjX).
    { destruct (decide (length X <= q)).
      - exists 0. split_and!; lia.
      - exists (length X - q). destruct W; [done|]. simpl in o. split_and!; lia. }
    destruct (lookup_lt_is_Some_2 (lit "res.status(") j) as [c Hc]; [simpl; lia|].
    pose proof (prefix_lookup _ _ _ _ Hpre Hc) as Hc2. rewrite lookup_drop in Hc2.
    destruct (lookup_lt_is_Some_2 W (q + j - length X)) as [c' Hc']; [lia|].
    apply Hso in Hc'. replace (length X + (q + j - length X)) with (q + j) in Hc' by lia.
    rewrite Hc2 in Hc'. injection Hc' as <-.
    assert (no_space (lit "res.status(") = true) as Hns by done.
    pose proof (no_space_lookup _ _ _ Hns Hc) as Hcn.
    unfold all_space in Hws. rewrite Forall_forall in Hws.
    assert (is_space c = true); [|congruence].
    apply Hws. apply list_elem_of_lookup. exists (q + j - length X).
    specialize (Hso (q + j - length X)).
    destruct (lookup_lt_is_Some_2 W (q + j - length X)) as [c'' Hc'']; [lia|].
    rewrite Hc''. f_equal. apply Hso in Hc''.
    replace (length X + (q + j - length X)) with (q + j) in Hc'' by lia. congruence. }
  rewrite E. rewrite (insert_all_split pa pb kw_sp s o); [|lia|..].
  2:{ eapply Forall_impl; [exact Ha|]. intros; simpl in *; lia. }
  2:{ done. }
  assert (Hdrop : drop o s = kw_sp ++ a).
  { unfold s, o. rewrite app_assoc, drop_app_length'; [done|]. by rewrite length_app. }
  rewrite Hdrop. rewrite insert_all_app.
  2:{ apply Forall_map. eapply Forall_impl; [exact Hb'|]. intros; simpl in *; lia. }
  eexists _, _. split; [done|]. split.
  - rewrite insert_all_length, length_take, <- E, <- Hl. simpl. lia.
  - replace o with (length X + length W) by done.
    apply insert_before_boundary.
    + lia.
    + unfold s. rewrite drop_app_length. by rewrite take_app_length.
    + destruct HX as [->|(X' & c & -> & Hc)]; [by left|]. right.
      exists c. split; [|done]. unfold s. rewrite lookup_app_l.
      * rewrite length_app. simpl. rewrite lookup_app_r by lia.
        by replace (length X' + 1 - 1 - length X') with 0 by lia.
      * rewrite length_app. simpl. lia.
    + done.
    + unfold s. by rewrite take_app_length.
Qed.

Lemma insert_all_boundary ps ins (s : text) i :
  i <= length s -> boundary s i -> Forall (fun q => q + 6 <= i) ps ->
  let X := insert_all ps ins (take i s) in
  X = [] \/ exists X' c, X = X' ++ [c] /\ is_space c = false.
Proof.
  intros Hi Hb Hps X. unfold X. destruct i as [|i].
  - left. destruct ps as [|q ps]; [done|].
    apply Forall_cons in Hps as [? _]. lia.
  - right. destruct Hb as [?|(c & Hc & Hs)]; [done|].
    replace (S i - 1) with i in Hc by lia.
    rewrite <- (app_nil_r ps).
    rewrite (insert_all_split _ _ _ _ i).
    + cbn [map insert_all]. rewrite (take_S_r _ _ _ Hc).
      rewrite drop_app_length'; [eauto|]. rewrite length_take. lia.
    + rewrite length_take. lia.
    + eapply Forall_impl; [exact Hps|]. intros; simpl in *; lia.
    + constructor.
Qed.

Section RuleKeyword.
Context {body : regex} {tok : text -> option nat} (T : token body tok).

(** Around the [k]-th keyword of a pass: white space [W] before it,
    and before [W] a text [X] that does not end with [return]. *)
Lemma pass_point_shape str w k p :
  6 <= w ->
  insertion_points w (finditer (rule body) str) !! k = Some p ->
  exists X W a,
    insert_all (insertion_points w (finditer (rule body) str)) kw_sp str =
      X ++ W ++ kw_sp ++ a /\
    length X + length W = p + 7 * k /\
    W <> [] /\ all_space W /\
    (X = [] \/ exists X' c, X = X' ++ [c] /\ is_space c = false) /\
    ~ kw `suffix_of` X.
Proof.
  intros Hw Hk. set (ps := insertion_points w (finditer (rule body) str)) in *.
  pose proof (finditer_points_sorted T str w) as Hs. fold ps in Hs.
  pose proof (list_elem_of_lookup_2 _ _ _ Hk) as Hp.
  apply elem_of_insertion_points in Hp as (m & Hm & Hg & Hp).
  pose proof Hm as (i & n & l & -> & Hb & ? & ? & ? & Hws & _)%(finditer_facts T).
  rewrite start_of_mk_match_2 in Hp. injection Hp as <-.
  assert (Hps : Forall (fun q => q + 6 <= i) (take k ps)).
  { apply Forall_forall. intros q Hq.
    pose proof (proj1 (sorted_lookup_lt ps k (i + n) q Hs Hk) Hq).
    apply (points_before T str w i n l); [done | | done].
    apply elem_of_take in Hq as (j & Hj & _).
    by eapply list_elem_of_lookup_2. }
  assert (Hbefore : insert_all (take k ps) kw_sp (take (i + n) str) =
                    insert_all (take k ps) kw_sp (take i str) ++ take n (drop i str)).
  { rewrite <- (app_nil_r (take k ps)) at 1.
    rewrite (insert_all_split _ _ _ _ i).
    - cbn [map insert_all]. rewrite take_take, Nat.min_l by lia.
      by rewrite <- take_take_drop, drop_app_length' by (rewrite length_take; lia).
    - rewrite length_take. lia.
    - eapply Forall_impl; [exact Hps|]. intros; simpl in *; lia.
    - constructor. }
  rewrite (insert_all_at ps kw_sp str k (i + n) Hs) by (done || lia).
  rewrite Hbefore, <- app_assoc.
  eexists _, _, _. split; [done|].
  assert (length (take n (drop i str)) = n) as HlW.
  { rewrite length_take, length_drop. lia. }
  split_and!.
  - rewrite insert_all_length, length_take, HlW, length_take.
    apply lookup_lt_Some in Hk. simpl. lia.
  - intros E. rewrite E in HlW. simpl in HlW. lia.
  - done.
  - apply insert_all_boundary; [lia | done | done].
  - intros Hkw.
    apply (insert_before_boundary (take k ps) kw_sp str i n); try done; [lia| |].
    + intros Hsuf. rewrite window_suffix in Hg; [done | done | lia | done].
    + rewrite Hbefore. destruct Hkw as [pre ->].
      exists pre, (take n (drop i str)).
      split_and!; [by rewrite <- !app_assoc | | done].
      intros E. rewrite E in HlW. simpl in HlW. lia.
Qed.

End RuleKeyword.

(** A keyword of the first pass of [fix_controller_returns] has no
    [return] and white space before it in the final text either. *)
Lemma json_keyword_kept T k p :
  points_json T !! k = Some p ->
  let T1 := insert_all (points_json T) kw_sp T in
  exists before after,
    insert_all (points_status T1) kw_sp T1 = before ++ kw_sp ++ after /\
    length before = p + 7 * k + 7 * count_below (p + 7 * k) (points_status T1) /\
    ~ doubled before.
Proof.
  intros Hk T1.
  destruct (pass_point_shape token_json T 20 k p) as
    (X & W & a & E & Hl & HW & Hws & HX & Hkw); [lia | done |].
  fold (points_json T) in E. fold T1 in E.
  destruct (status_pass_keeps X W a HW Hws HX Hkw) as (before & after & E' & Hl' & Hd).
  rewrite <- E, Hl in *. eauto.
Qed.

(** ** The guard *)

Section RuleGuard.
Context {body : regex} {tok : text -> option nat} (T : token body tok).

(** The callback leaves a match as it is exactly when the window
    before it holds [return]. *)
Lemma guard_exact str w m :
  m ∈ finditer (rule body) str ->
  add_return w m = group m 0 <->
  contains kw (slice str (Nat.max 0 (m_start m - w)) (m_start m)) = true.
Proof.
  intros (i & n & l & -> & _ & ? & ? & ? & _)%(finditer_facts T).
  rewrite add_return_mk_match, group_mk_match_0.
  change (contains kw (slice str (Nat.max 0 (m_start (mk_match str i n l) - w))
                         (m_start (mk_match str i n l))))
    with (guarded w (mk_match str i n l)).
  destruct (guarded w _); split; try done.
  - intros _. by rewrite app_nil_l, <- (drop_drop str n i), take_take_drop.
  - intros [= E]. apply (f_equal length) in E.
    rewrite !length_app, !length_take, !length_drop in E. simpl in E.
    rewrite length_take, length_drop in E. lia.
Qed.

End RuleGuard.

(** C2: a match is left unchanged exactly when the window before it
    (30 characters for [next(error);], 20 for the [res] rules, fewer at
    the start of the text) holds [return]; the match in
    [  return next(error);] is dropped; and no keyword is put in after a
    [return] and white space: neither in the output of a single pass nor,
    for the keywords of the first pass of [fix_controller_returns], in
    the output of the second. *)
Theorem guard_correct :
  (forall r w T m, (r, w) ∈ rules -> m ∈ finditer r T ->
     add_return w m = group m 0 <->
     contains kw (slice T (Nat.max 0 (m_start m - w)) (m_start m)) = true) /\
  (FixCatchBlocks.rewrite (lit "  return next(error);") =
     Some (lit "  return next(error);") /\
   exists m, finditer next_error_re (lit "  return next(error);") = [m] /\
     guarded 30 m = true) /\
  (forall r w T k p, (r, w) ∈ rules ->
     insertion_points w (finditer r T) !! k = Some p ->
     exists before after,
       re_sub r (add_return w) T = Some (before ++ kw_sp ++ after) /\
       length before = p + 7 * k /\ ~ doubled before) /\
  (forall T k p, points_json T !! k = Some p ->
     exists T1 before after,
       FixTsErrors.rewrite_json T = Some T1 /\
       FixTsErrors.rewrite T = Some (before ++ kw_sp ++ after) /\
       length before = p + 7 * k + 7 * count_below (p + 7 * k) (points_status T1) /\
       ~ doubled before).
Proof.
  split_and!.
  - intros r w T m. unfold rules. rewrite !elem_of_cons, elem_of_nil.
    intros [[= -> ->]|[[= -> ->]|[[= -> ->]|[]]]].
    + apply (guard_exact token_next).
    + apply (guard_exact token_json).
    + apply (guard_exact token_status).
  - by vm_compute.
  - eexists. split; by vm_compute.
  - intros r w T k p. unfold rules. rewrite !elem_of_cons, elem_of_nil.
    intros [[= -> ->]|[[= -> ->]|[[= -> ->]|[]]]].
    + apply (pass_no_double token_next). lia.
    + apply (pass_no_double token_json). lia.
    + apply (pass_no_double token_status). lia.
  - intros T k p Hk. destruct (json_keyword_kept T k p Hk) as (b & a & E & Hl & Hd).
    eexists _, b, a. split; [apply rewrite_json|].
    split; [by rewrite rewrite_ts, E|]. done.
Qed.

Lemma guard_correct_witness :
  (add_return 30 (mk_match (lit "  next(error);") 0 2 12) =
     group (mk_match (lit "  next(error);") 0 2 12) 0 <->
   contains kw (slice (lit "  next(error);") (Nat.max 0 (0 - 30)) 0) = true) /\
  (exists before after,
     re_sub next_error_re (add_return 30) (lit "  next(error);") =
       Some (before ++ kw_sp ++ after) /\
     length before = 2 + 7 * 0 /\ ~ doubled before) /\
  (exists T1 before after,
     FixTsErrors.rewrite_json (lit " res.status(200).json( res.json(1));") = Some T1 /\
     FixTsErrors.rewrite (lit " res.status(200).json( res.json(1));") =
       Some (before ++ kw_sp ++ after) /\
     length before = 23 + 7 * 0 + 7 * count_below (23 + 7 * 0) (points_status T1) /\
     ~ doubled before).
Proof.
  split_and!.
  - apply (proj1 guard_correct next_error_re 30 (lit "  next(error);")
             (mk_match (lit "  next(error);") 0 2 12)).
    + left.
    + vm_compute. left.
  - apply (proj1 (proj2 (proj2 guard_correct)) next_error_re 30).
    + left.
    + vm_compute. reflexivity.
  - apply (proj2 (proj2 (proj2 guard_correct))).
    vm_compute. reflexivity.
Defined.

(** ** Concrete rewrites *)

(** C4: on [  next(error);] the rule gives [  return next(error);]: the
    two spaces stay and [return ] stands right before the call.  A file
    with this text that can be written is written back with the new
    text. *)
Theorem targeted_insertion :
  FixCatchBlocks.rewrite (lit "  next(error);") = Some (lit "  return next(error);") /\
  points_next (lit "  next(error);") = [2] /\
  forall path w, files w !! path = Some (lit "  next(error);") ->
    path ∉ unwritable w ->
    FixCatchBlocks.fix_catch_blocks path w =
    Some (true, written path (lit "  return next(error);") w).
Proof.
  assert (FixCatchBlocks.rewrite (lit "  next(error);") =
          Some (lit "  return next(error);")) as H by (by vm_compute).
  split_and!; [done | by vm_compute |].
  intros path w Hf Hw. rewrite (fix_catch_blocks_run _ _ _ _ Hf H).
  rewrite decide_False by done. by rewrite decide_False.
Qed.

Lemma targeted_insertion_witness :
  FixCatchBlocks.fix_catch_blocks "a.controller.ts"
    (world0 "a.controller.ts" (lit "  next(error);")) =
  Some (true, written "a.controller.ts" (lit "  return next(error);")
                (world0 "a.controller.ts" (lit "  next(error);"))).
Proof.
  apply (proj2 (proj2 targeted_insertion)).
  - vm_compute. reflexivity.
  - apply not_elem_of_empty.
Defined.

(** C5: on a chained call the only insertion is at the start of the
    chain; nothing is put before [.json(]. *)
Theorem chained_call :
  FixTsErrors.rewrite_json (lit "    res.status(404).json({ ok: false });") =
    Some (lit "    res.status(404).json({ ok: false });") /\
  points_json (lit "    res.status(404).json({ ok: false });") = [] /\
  points_status (lit "    res.status(404).json({ ok: false });") = [4] /\
  FixTsErrors.rewrite (lit "    res.status(404).json({ ok: false });") =
    Some (lit "    return res.status(404).json({ ok: false });").
Proof. split_and!; by vm_compute. Qed.

(** ** Writing back and counting *)

Lemma fix_catch_blocks_one path w :
  FixCatchBlocks.fix_catch_blocks path w = run_one FixCatchBlocks.rewrite path w.
Proof.
  unfold run_one. destruct (files w !! path) as [T|] eqn:Hf.
  - rewrite rewrite_next. by apply fix_catch_blocks_run; [|apply rewrite_next].
  - unfold FixCatchBlocks.fix_catch_blocks, mbind, io_bind, read_file. by rewrite Hf.
Qed.

Lemma fix_controller_returns_one path w :
  FixTsErrors.fix_controller_returns path w = run_one FixTsErrors.rewrite path w.
Proof.
  unfold run_one. destruct (files w !! path) as [T|] eqn:Hf.
  - rewrite rewrite_ts. by apply fix_controller_returns_run; [|apply rewrite_ts].
  - unfold FixTsErrors.fix_controller_returns, mbind, io_bind, read_file. by rewrite Hf.
Qed.

Lemma catch_main_loop found fixed w :
  FixCatchBlocks.main_loop found fixed w =
  count_loop FixCatchBlocks.fix_catch_blocks "Fixed: " found fixed w.
Proof.
  revert fixed w. induction found as [|f found IH]; intros fixed w; [done|].
  cbn [FixCatchBlocks.main_loop count_loop]. unfold mbind, io_bind.
  destruct (FixCatchBlocks.fix_catch_blocks f w) as [[[] w1]|]; [|apply IH|done].
  destruct (print _ w1) as [[[] w2]|]; [apply IH|done].
Qed.

Lemma ts_main_loop found fixed w :
  FixTsErrors.main_loop found fixed w =
  count_loop FixTsErrors.fix_controller_returns "  Fixed: " found fixed w.
Proof.
  revert fixed w. induction found as [|f found IH]; intros fixed w; [done|].
  cbn [FixTsErrors.main_loop count_loop]. unfold mbind, io_bind.
  destruct (FixTsErrors.fix_controller_returns f w) as [[[] w1]|]; [|apply IH|done].
  destruct (print _ w1) as [[[] w2]|]; [apply IH|done].
Qed.

Lemma write_of_files rw w w' path :
  files w' !! path = files w !! path -> write_of rw w' path = write_of rw w path.
Proof. unfold write_of. by intros ->. Qed.

Lemma fails_on_files rw w w' path :
  files w' !! path = files w !! path -> unwritable w' = unwritable w ->
  fails_on rw w' path <-> fails_on rw w path.
Proof.
  intros Hf Hu. unfold fails_on. by rewrite Hf, Hu, (write_of_files rw w w' path Hf).
Qed.

(** One file, when the script returns: the file was read, it holds the
    rewritten text afterwards, and it was written exactly when the
    text changed, which needs a file that can be written. *)
Lemma run_one_files rw path w b w1 :
  run_one rw path w = Some (b, w1) ->
  exists T out, files w !! path = Some T /\ rw T = Some out /\
    files w1 = <[path := out]> (files w) /\ stdout w1 = stdout w /\
    unwritable w1 = unwritable w /\
    writes w1 = (if b then [(path, out)] else []) ++ writes w /\
    write_of rw w path = (if b then Some (path, out) else None) /\
    ~ fails_on rw w path.
Proof.
  unfold run_one, fails_on, write_of.
  destruct (files w !! path) as [T|] eqn:Hf; [|done].
  destruct (rw T) as [out|] eqn:Hr; [|done].
  destruct (decide (out = T)) as [->|Hne].
  - intros [= <- <-]. exists T, T. split_and!; try done.
    + by rewrite insert_id.
    + by intros [|[[? ?] _]].
  - destruct (decide (path ∈ unwritable w)) as [|Hw]; [done|].
    intros [= <- <-]. exists T, out. split_and!; try done.
    by intros [|[_ ?]].
Qed.

Lemma run_one_None rw path w :
  (forall T, is_Some (rw T)) ->
  run_one rw path w = None <-> fails_on rw w path.
Proof.
  intros Hrw. unfold run_one, fails_on, write_of.
  destruct (files w !! path) as [T|] eqn:Hf; [|by split; [left|]].
  destruct (Hrw T) as [out ->].
  destruct (decide (out = T)) as [->|Hne].
  - split; [done|]. by intros [|[[? ?] _]].
  - destruct (decide (path ∈ unwritable w)) as [Hw|Hw].
    + split; [|done]. intros _. right. eauto.
    + split; [done|]. by intros [|[_ ?]].
Qed.

(** The loop over distinct files on none of which the script raises:
    it counts the files whose text changes, writes exactly those, and
    prints one line for each. *)
Lemma count_loop_run rw f label found :
  (forall path w, f path w = run_one rw path w) ->
  (forall T, is_Some (rw T)) ->
  NoDup found ->
  forall fixed w,
    (forall path, path ∈ found -> ~ fails_on rw w path) ->
    exists w',
      count_loop f label found fixed w =
        Some (fixed + length (omap (write_of rw w) found), w') /\
      writes w' = reverse (omap (write_of rw w) found) ++ writes w /\
      stdout w' =
        reverse (map (fun x => label +:+ x.1) (omap (write_of rw w) found))
        ++ stdout w /\
      (forall path, path ∉ found -> files w' !! path = files w !! path) /\
      unwritable w' = unwritable w.
Proof.
  intros Hf Hrw. induction 1 as [|p found Hp Hnd IH]; intros fixed w Hok.
  - exists w. cbn. rewrite Nat.add_0_r. done.
  - cbn [count_loop omap list_omap]. unfold mbind at 1, io_bind at 1.
    rewrite Hf.
    destruct (run_one rw p w) as [[b w1]|] eqn:E.
    2:{ apply (run_one_None _ _ _ Hrw) in E. destruct (Hok p); [by left | done]. }
    apply run_one_files in E as (T & out & HT & Hout & Hw1 & Hs1 & Hu1 & Hwr1 & Hwp & _).
    rewrite Hwp.
    assert (exists w2, files w2 = files w1 /\ unwritable w2 = unwritable w1 /\
              writes w2 = writes w1 /\
              stdout w2 = (if b then [label +:+ p] else []) ++ stdout w1 /\
              (if b then print (label +:+ p);; count_loop f label found (fixed + 1)
               else count_loop f label found fixed) w1 =
              count_loop f label found (if b then fixed + 1 else fixed) w2)
      as (w2 & Hf2 & Hu2 & Hwr2 & Hs2 & ->).
    { destruct b; [|by exists w1].
      by exists {| files := files w1; unwritable := unwritable w1;
                   writes := writes w1; stdout := (label +:+ p) :: stdout w1 |}. }
    assert (forall q, q <> p -> files w2 !! q = files w !! q) as Hw2.
    { intros q Hq. by rewrite Hf2, Hw1, lookup_insert_ne. }
    assert (omap (write_of rw w2) found = omap (write_of rw w) found) as Hsame.
    { clear IH Hnd Hok. induction found as [|q found IHf]; [done|].
      apply not_elem_of_cons in Hp as [Hqp Hp].
      cbn [omap list_omap]. rewrite (write_of_files rw w w2 q) by (apply Hw2; congruence).
      by rewrite IHf. }
    destruct (IH (if b then fixed + 1 else fixed) w2) as (w' & E & Hw & Hs & Hfl & Hu).
    { intros q Hq. rewrite fails_on_files.
      - apply Hok. by right.
      - apply Hw2. by intros ->.
      - by rewrite Hu2, Hu1. }
    rewrite Hsame in E, Hw, Hs.
    exists w'. split_and!.
    + rewrite E. destruct b; cbn [length]; do 2 f_equal; lia.
    + rewrite Hw, Hwr2, Hwr1. destruct b; [|done].
      by rewrite reverse_cons, <- app_assoc.
    + rewrite Hs, Hs2, Hs1. destruct b; [|done].
      cbn [map fst]. by rewrite reverse_cons, <- app_assoc.
    + intros q Hq. apply not_elem_of_cons in Hq as [Hqp Hq].
      rewrite Hfl by done. by apply Hw2.
    + by rewrite Hu, Hu2, Hu1.
Qed.

(** The loop raises exactly when the script raises on a file of the
    list: on the first such file.  A path that the traversal yields
    twice is no exception when the rewrite leaves its own output as it
    is. *)
Lemma count_loop_None rw f label found :
  (forall path w, f path w = run_one rw path w) ->
  (forall T, is_Some (rw T)) ->
  NoDup found \/ (forall T out, rw T = Some out -> rw out = Some out) ->
  forall fixed w,
    count_loop f label found fixed w = None <->
    exists path, path ∈ found /\ fails_on rw w path.
Proof.
  intros Hf Hrw. induction found as [|p found IH]; intros Hd fixed w.
  - cbn. split; [done|]. by intros (? & ?%elem_of_nil & _).
  - cbn [count_loop]. unfold mbind at 1, io_bind at 1. rewrite Hf.
    destruct (run_one rw p w) as [[b w1]|] eqn:E.
    2:{ split; [|done]. intros _. exists p. split; [by left|].
        by apply (run_one_None _ _ _ Hrw). }
    apply run_one_files in E as (T & out & HT & Hout & Hw1 & Hs1 & Hu1 & _ & _ & Hnf).
    assert (exists fixed' w2, files w2 = files w1 /\ unwritable w2 = unwritable w1 /\
              (if b then print (label +:+ p);; count_loop f label found (fixed + 1)
               else count_loop f label found fixed) w1 =
              count_loop f label found fixed' w2)
      as (fixed' & w2 & Hf2 & Hu2 & ->).
    { destruct b; [|by exists fixed, w1].
      by exists (fixed + 1),
        {| files := files w1; unwritable := unwritable w1;
           writes := writes w1; stdout := (label +:+ p) :: stdout w1 |}. }
    rewrite IH.
    2:{ destruct Hd as [Hnd|Hid]; [left; by apply NoDup_cons in Hnd as [_ ?] | by right]. }
    assert (forall q, q ∈ found -> fails_on rw w2 q <-> fails_on rw w q) as Hsame.
    { intros q Hq. destruct (decide (q = p)) as [->|Hne].
      - destruct Hd as [Hnd|Hid]; [by apply NoDup_cons in Hnd as [? _]|].
        split; [|done]. intros [Hn|[[x Hx] _]].
        + by rewrite Hf2, Hw1, lookup_insert_eq in Hn.
        + unfold write_of in Hx. rewrite Hf2, Hw1, lookup_insert_eq in Hx.
          rewrite (Hid _ _ Hout) in Hx. by rewrite decide_True in Hx.
      - apply fails_on_files.
        + by rewrite Hf2, Hw1, lookup_insert_ne.
        + by rewrite Hu2, Hu1. }
    split.
    + intros (q & Hq & Hfq). exists q. split; [by right | by apply Hsame].
    + intros (q & [->|Hq]%elem_of_cons & Hfq); [done|].
      exists q. split; [done | by apply Hsame].
Qed.

Lemma rewrite_next_total T : is_Some (FixCatchBlocks.rewrite T).
Proof. rewrite rewrite_next. eauto. Qed.

Lemma rewrite_ts_total T : is_Some (FixTsErrors.rewrite T).
Proof. rewrite rewrite_ts. eauto. Qed.

(** C8: each script writes a file back exactly when the rewritten text
    differs from the one it read, and returns [True] exactly then: with
    an unchanged text it returns [False] and leaves everything as it
    is; with a changed text it writes the file and returns [True], or
    raises when the file cannot be written.  Over distinct files on
    none of which the script raises, [main] counts and writes the files
    whose text changed, no others, and reports that count; when the
    script raises on one of the files, so does [main]. *)
Theorem no_write_on_no_change :
  (forall path w T, files w !! path = Some T ->
     exists out,
       FixCatchBlocks.rewrite T = Some out /\
       FixCatchBlocks.fix_catch_blocks path w =
         if decide (out = T) then Some (false, w)
         else if decide (path ∈ unwritable w) then None
         else Some (true, written path out w)) /\
  (forall path w T, files w !! path = Some T ->
     exists out,
       FixTsErrors.rewrite T = Some out /\
       FixTsErrors.fix_controller_returns path w =
         if decide (out = T) then Some (false, w)
         else if decide (path ∈ unwritable w) then None
         else Some (true, written path out w)) /\
  (forall found w, NoDup found ->
     let changed := omap (write_of FixCatchBlocks.rewrite w) found in
     ((forall path, path ∈ found -> ~ fails_on FixCatchBlocks.rewrite w path) ->
      exists w',
        FixCatchBlocks.main found w = Some (tt, w') /\
        writes w' = reverse changed ++ writes w /\
        stdout w' =
          (nl +:+ "Fixed " +:+ pretty (length changed) +:+ " files")
          :: reverse (map (fun x => "Fixed: " +:+ x.1) changed) ++ stdout w) /\
     ((exists path, path ∈ found /\ fails_on FixCatchBlocks.rewrite w path) ->
      FixCatchBlocks.main found w = None)) /\
  (forall found w, NoDup found ->
     let changed := omap (write_of FixTsErrors.rewrite w) found in
     ((forall path, path ∈ found -> ~ fails_on FixTsErrors.rewrite w path) ->
      exists w',
        FixTsErrors.main found w = Some (tt, w') /\
        writes w' = reverse changed ++ writes w /\
        stdout w' =
          "The pattern 'prisma.table.method()' needs table models defined in Prisma schema"
          :: (nl +:+ "Note: Service file database access errors require manual review")
          :: (nl +:+ "Fixed " +:+ pretty (length changed) +:+ " controller files")
          :: reverse (map (fun x => "  Fixed: " +:+ x.1) changed)
          ++ "Fixing controller return statements..." :: stdout w) /\
     ((exists path, path ∈ found /\ fails_on FixTsErrors.rewrite w path) ->
      FixTsErrors.main found w = None)).
Proof.
  split_and!.
  - intros path w T Hf. destruct (rewrite_next_total T) as [out Ho].
    exists out. split; [done|]. by apply fix_catch_blocks_run.
  - intros path w T Hf. destruct (rewrite_ts_total T) as [out Ho].
    exists out. split; [done|]. by apply fix_controller_returns_run.
  - intros found w Hnd changed. split.
    + intros Hok.
      destruct (count_loop_run FixCatchBlocks.rewrite FixCatchBlocks.fix_catch_blocks
                  "Fixed: " found fix_catch_blocks_one rewrite_next_total Hnd 0 w Hok)
        as (w' & E & Hw & Hs & _).
      fold changed in E, Hw, Hs.
      unfold FixCatchBlocks.main, mbind, io_bind. rewrite catch_main_loop, E.
      cbn [Nat.add print mret io_ret]. eexists. split; [done|].
      cbn [writes stdout]. by rewrite Hw, Hs.
    + intros Hbad.
      apply (count_loop_None FixCatchBlocks.rewrite FixCatchBlocks.fix_catch_blocks
               "Fixed: " found fix_catch_blocks_one rewrite_next_total
               (or_introl Hnd) 0 w) in Hbad.
      unfold FixCatchBlocks.main, mbind, io_bind. by rewrite catch_main_loop, Hbad.
  - intros found w Hnd changed.
    set (w0 := {| files := files w; unwritable := unwritable w; writes := writes w;
                  stdout := "Fixing controller return statements..." :: stdout w |}).
    assert (forall path, fails_on FixTsErrors.rewrite w0 path <->
                         fails_on FixTsErrors.rewrite w path) as Hsame
      by (intros path; by apply fails_on_files).
    split.
    + intros Hok.
      destruct (count_loop_run FixTsErrors.rewrite FixTsErrors.fix_controller_returns
                  "  Fixed: " found fix_controller_returns_one rewrite_ts_total Hnd 0 w0)
        as (w' & E & Hw & Hs & _).
      { intros path Hin. rewrite Hsame. by apply Hok. }
      assert (omap (write_of FixTsErrors.rewrite w0) found = changed) as Hc by done.
      rewrite Hc in E, Hw, Hs.
      unfold FixTsErrors.main, mbind, io_bind. unfold print at 1. fold w0.
      rewrite ts_main_loop, E.
      cbn [Nat.add print mret io_ret]. eexists. split; [done|].
      cbn [writes stdout]. by rewrite Hw, Hs.
    + intros (path & Hin & Hbad).
      assert (count_loop FixTsErrors.fix_controller_returns "  Fixed: " found 0 w0
              = None) as E.
      { apply (count_loop_None FixTsErrors.rewrite _ _ _ fix_controller_returns_one
                 rewrite_ts_total (or_introl Hnd)).
        exists path. by rewrite Hsame. }
      unfold FixTsErrors.main, mbind, io_bind. unfold print at 1. fold w0.
      by rewrite ts_main_loop, E.
Qed.

Lemma no_write_on_no_change_witness :
  (exists out,
     FixCatchBlocks.rewrite (lit "  next(error);") = Some out /\
     FixCatchBlocks.fix_catch_blocks "a.controller.ts" world3 =
       if decide (out = lit "  next(error);") then Some (false, world3)
       else if decide ("a.controller.ts" ∈ unwritable world3) then None
       else Some (true, written "a.controller.ts" out world3)) /\
  (exists out,
     FixTsErrors.rewrite (lit "  next(error);") = Some out /\
     FixTsErrors.fix_controller_returns "a.controller.ts" world2 =
       if decide (out = lit "  next(error);") then Some (false, world2)
       else if decide ("a.controller.ts" ∈ unwritable world2) then None
       else Some (true, written "a.controller.ts" out world2)) /\
  (let changed := omap (write_of FixCatchBlocks.rewrite world2)
                    ["a.controller.ts"; "b.controller.ts"] in
   exists w',
     FixCatchBlocks.main ["a.controller.ts"; "b.controller.ts"] world2 =
       Some (tt, w') /\
     writes w' = reverse changed ++ writes world2 /\
     stdout w' =
       (nl +:+ "Fixed " +:+ pretty (length changed) +:+ " files")
       :: reverse (map (fun x => "Fixed: " +:+ x.1) changed) ++ stdout world2) /\
  FixCatchBlocks.main ["b.controller.ts"; "a.controller.ts"] world3 = None /\
  (let changed := omap (write_of FixTsErrors.rewrite world2)
                    ["a.controller.ts"; "b.controller.ts"] in
   exists w',
     FixTsErrors.main ["a.controller.ts"; "b.controller.ts"] world2 =
       Some (tt, w') /\
     writes w' = reverse changed ++ writes world2 /\
     stdout w' =
       "The pattern 'prisma.table.method()' needs table models defined in Prisma schema"
       :: (nl +:+ "Note: Service file database access errors require manual review")
       :: (nl +:+ "Fixed " +:+ pretty (length changed) +:+ " controller files")
       :: reverse (map (fun x => "  Fixed: " +:+ x.1) changed)
       ++ "Fixing controller return statements..." :: stdout world2).
Proof.
  assert (NoDup ["a.controller.ts"; "b.controller.ts"]) as Hnd.
  { apply (bool_decide_unpack _). vm_compute. exact I. }
  assert (NoDup ["b.controller.ts"; "a.controller.ts"]) as Hnd'.
  { apply (bool_decide_unpack _). vm_compute. exact I. }
  assert (forall rw path, path ∈ ["a.controller.ts"; "b.controller.ts"] ->
            ~ fails_on rw world2 path) as Hok.
  { intros rw path Hin [Hn|[_ Hu]]; [|by apply not_elem_of_empty in Hu].
    apply elem_of_cons in Hin as [->|Hin]; [by vm_compute in Hn|].
    apply elem_of_cons in Hin as [->|Hin]; [by vm_compute in Hn|].
    by apply elem_of_nil in Hin. }
  split_and!.
  - apply (proj1 no_write_on_no_change). vm_compute. reflexivity.
  - apply (proj1 (proj2 no_write_on_no_change)). vm_compute. reflexivity.
  - apply (proj1 (proj1 (proj2 (proj2 no_write_on_no_change)) _ world2 Hnd)).
    apply Hok.
  - apply (proj2 (proj1 (proj2 (proj2 no_write_on_no_change)) _ world3 Hnd')).
    exists "a.controller.ts". split; [by right; left|]. right. split.
    + vm_compute. eauto.
    + apply elem_of_union_l. by apply elem_of_singleton.
  - apply (proj1 (proj2 (proj2 (proj2 no_write_on_no_change)) _ world2 Hnd)).
    apply Hok.
Defined.

(** ** Every occurrence is matched *)

Lemma run_len_exact p (s : text) n :
  (forall j, j < n -> exists c, s !! j = Some c /\ p c = true) ->
  (forall c, s !! n = Some c -> p c = false) ->
  run_len p s = n.
Proof.
  revert n. induction s as [|x s IH]; intros n Hall Hstop.
  - destruct n as [|n]; [done|]. destruct (Hall 0) as (c & Hc & _); [lia | done].
  - destruct n as [|n]; simpl.
    + by rewrite (Hstop x).
    + destruct (Hall 0) as (c & [= ->] & ->); [lia|]. f_equal. apply IH.
      * intros j Hj. apply (Hall (S j)). lia.
      * intros c' Hc'. by apply Hstop.
Qed.

(** The white space that ends right before offset [p] starts at a
    boundary. *)
Lemma space_run_start (T : text) p :
  0 < p -> (exists c, T !! (p - 1) = Some c /\ is_space c = true) ->
  exists i, i < p /\ boundary T i /\
    forall j, i <= j < p -> exists c, T !! j = Some c /\ is_space c = true.
Proof.
  induction p as [|q IH]; [lia|]. intros _ (c & Hc & Hs).
  replace (S q - 1) with q in Hc by lia.
  destruct q as [|q].
  - exists 0. split_and!; [lia | by left |].
    intros j Hj. replace j with 0 by lia. eauto.
  - destruct (lookup_lt_is_Some_2 T q) as [c' Hc'].
    { apply lookup_lt_Some in Hc. lia. }
    destruct (is_space c') eqn:Hs'.
    + destruct IH as (i & Hi & Hb & Hall); [lia | |].
      { replace (S q - 1) with q by lia. eauto. }
      exists i. split_and!; [lia | done |].
      intros j Hj. destruct (decide (j = S q)) as [->|]; [eauto|].
      apply Hall. lia.
    + exists (S q). split_and!; [lia | |].
      * right. replace (S q - 1) with q by lia. eauto.
      * intros j Hj. replace j with (S q) by lia. eauto.
Qed.

Section RuleComplete.
Context {body : regex} {tok : text -> option nat} (T : token body tok).
(** The token holds no white space: true of the two literal tokens,
    not of [res.status(...).json(]. *)
Hypothesis tok_no_space : forall s l j c,
  tok s = Some l -> j < l -> s !! j = Some c -> is_space c = false.

Lemma chain_complete str pos ms i n l :
  chain tok str pos ms ->
  pos <= i -> boundary str i -> hit tok (drop i str) = Some (n, l) ->
  mk_match str i n l ∈ ms.
Proof.
  induction 1 as [pos Hnone|pos i0 n0 l0 ms Hpos Hh0 Hn _ IH]; intros Hi Hb Hh.
  - rewrite Hnone in Hh; done.
  - destruct (decide (i = i0)) as [->|Hne].
    { rewrite Hh in Hh0. injection Hh0 as -> ->. by left. }
    right.
    destruct (decide (i < i0)) as [Hlt|Hge].
    { rewrite Hn in Hh; [done | lia]. }
    pose proof Hh0 as (En0 & ? & Ht0 & ? & Hl0)%(hit_Some T).
    rewrite length_drop in Hl0.
    pose proof Hh as (En & ? & _ & _ & Hl)%(hit_Some T).
    rewrite length_drop in Hl.
    destruct (lookup_lt_is_Some_2 str i) as [c Hc]; [lia|].
    assert (is_space c = true) as Hcs.
    { eapply (run_len_all is_space (drop i str) 0); [lia|].
      by rewrite lookup_drop, Nat.add_0_r. }
    apply IH; [|done|done].
    destruct (decide (i0 + n0 + l0 <= i)) as [|Hin]; [done|]. exfalso.
    destruct (decide (i < i0 + n0)) as [Hw|Ht].
    + destruct Hb as [->|(c' & Hc' & Hs')]; [lia|].
      assert (is_space c' = true); [|congruence].
      eapply (run_len_all is_space (drop i0 str) (i - 1 - i0)); [lia|].
      rewrite lookup_drop, <- Hc'. f_equal. lia.
    + assert (is_space c = false); [|congruence].
      apply (tok_no_space (drop n0 (drop i0 str)) l0 (i - i0 - n0)); [done | lia |].
      rewrite !lookup_drop, <- Hc. f_equal. lia.
Qed.

(** A call after white space is matched, whatever stands around it,
    and gets the keyword exactly when the window of its match has no
    [return]. *)
Lemma call_matched str w p :
  call_at tok str p = true ->
  exists m, m ∈ finditer (rule body) str /\ start_of m 2 = Some p /\
    (p ∈ insertion_points w (finditer (rule body) str) <-> guarded w m = false).
Proof.
  unfold call_at. destruct p as [|q]; [done|].
  destruct (str !! q) as [c|] eqn:Hc; [|done].
  destruct (tok (drop (S q) str)) as [l|] eqn:Ht; [|done]. intros Hs.
  destruct (space_run_start str (S q)) as (i & Hi & Hb & Hall); [lia| |].
  { replace (S q - 1) with q by lia. eauto. }
  assert (run_len is_space (drop i str) = S q - i) as Hrun.
  { apply run_len_exact.
    - intros j Hj. rewrite lookup_drop. apply Hall. lia.
    - intros c' Hc'. rewrite lookup_drop in Hc'.
      replace (i + (S q - i)) with (S q) in Hc' by lia.
      destruct (drop (S q) str) as [|x t] eqn:Ed.
      { apply (tok_length _ _ T) in Ht. simpl in Ht. lia. }
      apply lookup_drop_head in Ed. rewrite Ed in Hc'. injection Hc' as <-.
      by eapply (tok_first _ _ T). }
  assert (hit tok (drop i str) = Some (S q - i, l)) as Hh.
  { unfold hit. rewrite Hrun. rewrite (proj2 (Nat.ltb_lt _ _)) by lia.
    rewrite drop_drop. replace (i + (S q - i)) with (S q) by lia. by rewrite Ht. }
  pose proof (chain_complete str 0 _ i _ l (finditer_chain T str) ltac:(lia) Hb Hh) as Hm.
  exists (mk_match str i (S q - i) l). split; [done|]. split.
  { rewrite start_of_mk_match_2. f_equal. lia. }
  rewrite elem_of_insertion_points. split.
  - intros (m' & Hm' & Hg' & Hp').
    pose proof Hm' as (i' & n' & l' & -> & _ & ? & ? & _)%(finditer_facts T).
    rewrite start_of_mk_match_2 in Hp'. injection Hp' as Hp'.
    destruct (chain_disjoint _ _ _ _ _ (finditer_chain T str) Hm Hm') as [E|[E|E]];
      cbn [m_start m_end mk_match] in E; [by rewrite E | lia | lia].
  - intros Hg. eexists. split_and!; [done | done |].
    rewrite start_of_mk_match_2. f_equal. lia.
Qed.

End RuleComplete.

Lemma tok_lit_no_space lt' s l j c :
  no_space lt' = true ->
  tok_lit lt' s = Some l -> j < l -> s !! j = Some c -> is_space c = false.
Proof.
  intros Hns. unfold tok_lit. destruct (starts_with lt' s) eqn:E; [|done].
  intros [= <-] Hj Hc. apply starts_with_prefix in E as [k ->].
  rewrite lookup_app_l in Hc by done. by eapply no_space_lookup.
Qed.

(** ** String and comment literals *)

(** C3, as stated, fails: a call inside a comment and a call inside a
    string literal are matched and get the keyword. *)
Lemma literal_is_rewritten :
  (in_line_comment (lit "// next(error);") 3 /\
   3 ∈ points_next (lit "// next(error);") /\
   FixCatchBlocks.rewrite (lit "// next(error);") =
     Some (lit "// return next(error);")) /\
  (in_quoted (lit "log(' res.json(');") 6 /\
   6 ∈ points_json (lit "log(' res.json(');") /\
   FixTsErrors.rewrite (lit "log(' res.json(');") =
     Some (lit "log(' return res.json(');")).
Proof.
  split_and!.
  - exists [], [32%N]. split; [done|].
    apply (bool_decide_unpack _). vm_compute. exact I.
  - vm_compute. left.
  - by vm_compute.
  - exists (lit "log("), [32%N]. split_and!; [done|..];
      apply (bool_decide_unpack _); vm_compute; exact I.
  - vm_compute. left.
  - by vm_compute.
Qed.

(** C3, amended: the scan is over the raw characters and knows no
    string or comment literal.  Every [next(error);] (in
    [fix_catch_blocks]) and every [res.json(] (in the first pass of
    [fix_controller_returns]) that follows a white-space character is
    matched, wherever it stands, and gets the keyword exactly when the
    window before its match has no [return]. *)
Theorem literal_scan :
  (forall T p, call_at tok_next T p = true ->
     exists m, m ∈ finditer next_error_re T /\ start_of m 2 = Some p /\
       (p ∈ points_next T <-> guarded 30 m = false)) /\
  (forall T p, call_at tok_json T p = true ->
     exists m, m ∈ finditer res_json_re T /\ start_of m 2 = Some p /\
       (p ∈ points_json T <-> guarded 20 m = false)).
Proof.
  split.
  - intros T p. apply (call_matched token_next).
    intros s l j c. by apply tok_lit_no_space.
  - intros T p. apply (call_matched token_json).
    intros s l j c. by apply tok_lit_no_space.
Qed.

Lemma literal_scan_witness :
  (exists m, m ∈ finditer next_error_re (lit "// next(error);") /\
     start_of m 2 = Some 3 /\
     (3 ∈ points_next (lit "// next(error);") <-> guarded 30 m = false)) /\
  (exists m, m ∈ finditer res_json_re (lit "log(' res.json(');") /\
     start_of m 2 = Some 6 /\
     (6 ∈ points_json (lit "log(' res.json(');") <-> guarded 20 m = false)).
Proof.
  split.
  - apply (proj1 literal_scan). vm_compute. reflexivity.
  - apply (proj2 literal_scan). vm_compute. reflexivity.
Defined.

(** ** Nested calls *)




(** * Further properties *)

(** ** Texts without a call *)

Section RuleAbsent.
Context {body : regex} {tok : text -> option nat} (T : token body tok).

Lemma no_token_no_match str :
  (forall q, tok (drop q str) = None) -> finditer (rule body) str = [].
Proof.
  intros Hno. pose proof (finditer_chain T str) as Hc.
  destruct Hc as [|pos i n l ms _ Hh _ _]; [done|].
  apply (hit_Some T) in Hh as (_ & _ & Ht & _). rewrite drop_drop in Ht.
  by rewrite Hno in Ht.
Qed.

Lemma no_token_unchanged str w :
  (forall q, tok (drop q str) = None) ->
  re_sub (rule body) (add_return w) str = Some str.
Proof.
  intros Hno. rewrite (re_sub_rule T), no_token_no_match by done. done.
Qed.

End RuleAbsent.

Lemma contains_drop n (h : text) q :
  contains n h = false -> starts_with n (drop q h) = false.
Proof.
  intros Hc. destruct (starts_with n (drop q h)) eqn:E; [|done].
  apply starts_with_prefix in E as [k E].
  rewrite <- Hc. symmetry. apply contains_spec.
  exists (take q h), k. by rewrite <- E, take_drop.
Qed.

Lemma contains_app_r n a (h : text) :
  contains n h = true -> contains n (a ++ h) = true.
Proof.
  rewrite !contains_spec. intros (x & y & ->). exists (a ++ x), y.
  by rewrite <- app_assoc.
Qed.

Lemma contains_app_l n (h : text) b :
  contains n h = true -> contains n (h ++ b) = true.
Proof.
  rewrite !contains_spec. intros (x & y & ->). exists x, (y ++ b).
  by rewrite <- !app_assoc.
Qed.

Lemma tok_status_json s : contains (lit ".json(") s = false -> tok_status s = None.
Proof.
  intros Hc. destruct (tok_status s) as [n|] eqn:E; [|done].
  apply tok_status_Some in E as (a & _ & _ & E & _).
  enough (contains (lit ".json(") s = true) by congruence. apply contains_spec.
  exists (lit "res.status(" ++ a ++ lit ")"), (drop n s).
  rewrite E at 1. by rewrite <- !app_assoc.
Qed.

(** X1: a text without [next(error);] is left as it is by
    [fix_catch_blocks], and a text without [.json(] by
    [fix_controller_returns]: no insertion, no write, [False]. *)
Theorem untouched_without_call :
  (forall T, contains (lit "next(error);") T = false ->
     FixCatchBlocks.rewrite T = Some T /\
     forall path w, files w !! path = Some T ->
       FixCatchBlocks.fix_catch_blocks path w = Some (false, w)) /\
  (forall T, contains (lit ".json(") T = false ->
     FixTsErrors.rewrite T = Some T /\
     forall path w, files w !! path = Some T ->
       FixTsErrors.fix_controller_returns path w = Some (false, w)).
Proof.
  split.
  - intros T Hc.
    assert (FixCatchBlocks.rewrite T = Some T) as Hr.
    { apply (no_token_unchanged token_next). intros q. unfold tok_next, tok_lit.
      by rewrite contains_drop. }
    split; [done|]. intros path w Hf.
    rewrite (fix_catch_blocks_run path T T w) by done. by rewrite decide_True.
  - intros T Hc.
    assert (FixTsErrors.rewrite T = Some T) as Hr.
    { unfold FixTsErrors.rewrite, FixTsErrors.rewrite_json, FixTsErrors.rewrite_status.
      rewrite (no_token_unchanged token_json).
      - apply (no_token_unchanged token_status). intros q. apply tok_status_json.
        destruct (contains (lit ".json(") (drop q T)) eqn:E; [|done].
        enough (contains (lit ".json(") T = true) by congruence.
        rewrite <- (take_drop q T). by rewrite contains_app_r.
      - intros q. unfold tok_json, tok_lit.
        destruct (starts_with (lit "res.json(") (drop q T)) eqn:E; [|done].
        apply starts_with_prefix in E as [k E].
        enough (contains (lit ".json(") T = true) by congruence.
        apply contains_spec. exists (take q T ++ lit "res"), k.
        rewrite <- (take_drop q T) at 1. rewrite E. by rewrite <- !app_assoc. }
    split; [done|]. intros path w Hf.
    rewrite (fix_controller_returns_run path T T w) by done. by rewrite decide_True.
Qed.

Lemma untouched_without_call_witness :
  (FixCatchBlocks.rewrite (lit "  return res.json(x);") = Some (lit "  return res.json(x);") /\
   forall path w, files w !! path = Some (lit "  return res.json(x);") ->
     FixCatchBlocks.fix_catch_blocks path w = Some (false, w)) /\
  (FixTsErrors.rewrite (lit "  next(error);") = Some (lit "  next(error);") /\
   forall path w, files w !! path = Some (lit "  next(error);") ->
     FixTsErrors.fix_controller_returns path w = Some (false, w)).
Proof.
  split.
  - apply (proj1 untouched_without_call). vm_compute. reflexivity.
  - apply (proj2 untouched_without_call). vm_compute. reflexivity.
Defined.

(** ** Lines and characters *)

Lemma count_char_app c a b :
  count_char c (a ++ b) = count_char c a + count_char c b.
Proof. induction a as [|x a IH]; simpl; [done|]. rewrite IH. lia. Qed.

Lemma insertions_count ins k s t c :
  insertions ins k s t ->
  count_char c t = count_char c s + k * count_char c ins.
Proof.
  induction 1 as [|k s a b _ IH]; [lia|].
  rewrite !count_char_app in *. lia.
Qed.

(** X2: the rewritten text has the lines of the input: the number of
    newlines, and of any character that is not in [return ], is the
    same; a character of [return ] occurs once more per insertion. *)
Theorem lines_preserved :
  (forall T c, exists out,
      FixCatchBlocks.rewrite T = Some out /\
      count_char c out =
        count_char c T + length (points_next T) * count_char c kw_sp /\
      count_char 10 out = count_char 10 T) /\
  (forall T c, exists T1 out,
      FixTsErrors.rewrite_json T = Some T1 /\
      FixTsErrors.rewrite T = Some out /\
      count_char c out =
        count_char c T +
        (length (points_json T) + length (points_status T1)) * count_char c kw_sp /\
      count_char 10 out = count_char 10 T).
Proof.
  split.
  - intros T c. eexists. split; [apply rewrite_next|].
    pose proof (insert_all_insertions (points_next T) kw_sp T) as H.
    split; [by apply insertions_count|].
    rewrite (insertions_count _ _ _ _ 10%N H). simpl. lia.
  - intros T c. eexists _, _. split; [apply rewrite_json|]. split; [apply rewrite_ts|].
    pose proof (insertions_trans _ _ _ _ _ _
           (insert_all_insertions (points_json T) kw_sp T)
           (insert_all_insertions
              (points_status (insert_all (points_json T) kw_sp T)) kw_sp _)) as H.
    split; [by apply insertions_count|].
    rewrite (insertions_count _ _ _ _ 10%N H). simpl. lia.
Qed.

(** ** What [main] leaves behind *)

(** After the loop, every file of the list holds its rewritten text and
    every other file is as it was. *)
Lemma count_loop_files rw f label found :
  (forall path w, f path w = run_one rw path w) ->
  NoDup found ->
  forall fixed w n w',
    count_loop f label found fixed w = Some (n, w') ->
    (forall path T, path ∈ found -> files w !! path = Some T ->
       files w' !! path = rw T) /\
    (forall path, path ∉ found -> files w' !! path = files w !! path).
Proof.
  intros Hf. induction 1 as [|p found Hp Hnd IH]; intros fixed w n w'.
  - cbn. intros [= _ <-]. split; [by intros ?? ?%elem_of_nil | done].
  - cbn [count_loop]. unfold mbind at 1, io_bind at 1. rewrite Hf.
    destruct (run_one rw p w) as [[b w1]|] eqn:E; [|done].
    apply run_one_files in E as (T0 & out & HT0 & Hout & Hw1 & _).
    intros Hloop.
    assert (exists fixed' w2, files w2 = files w1 /\
              count_loop f label found fixed' w2 = Some (n, w'))
      as (fixed' & w2 & Hw2 & Hloop').
    { destruct b.
      - unfold mbind at 1, io_bind at 1 in Hloop. unfold print at 1 in Hloop.
        eexists _, _. split; [|exact Hloop]. done.
      - by exists fixed, w1. }
    apply IH in Hloop' as [IH1 IH2]. rewrite Hw2 in IH1, IH2. split.
    + intros path T [->|Hin]%elem_of_cons HT.
      * rewrite IH2 by done. rewrite Hw1, lookup_insert_eq. congruence.
      * apply IH1; [done|]. rewrite Hw1, lookup_insert_ne; [done|]. by intros ->.
    + intros path [Hne Hnin]%not_elem_of_cons.
      rewrite IH2 by done. by rewrite Hw1, lookup_insert_ne.
Qed.

Lemma catch_main_unfold found w :
  FixCatchBlocks.main found w =
  match count_loop FixCatchBlocks.fix_catch_blocks "Fixed: " found 0 w with
  | Some (n, w1) =>
      Some (tt, {| files := files w1; unwritable := unwritable w1; writes := writes w1;
                   stdout := (nl +:+ "Fixed " +:+ pretty n +:+ " files") :: stdout w1 |})
  | None => None
  end.
Proof.
  unfold FixCatchBlocks.main, mbind, io_bind. rewrite catch_main_loop.
  by destruct (count_loop _ _ _ _ _) as [[n w1]|].
Qed.

Lemma ts_main_unfold found w :
  FixTsErrors.main found w =
  match count_loop FixTsErrors.fix_controller_returns "  Fixed: " found 0
          {| files := files w; unwritable := unwritable w; writes := writes w;
             stdout := "Fixing controller return statements..." :: stdout w |} with
  | Some (n, w1) =>
      Some (tt, {| files := files w1; unwritable := unwritable w1; writes := writes w1;
                   stdout :=
                     "The pattern 'prisma.table.method()' needs table models defined in Prisma schema"
                     :: (nl +:+ "Note: Service file database access errors require manual review")
                     :: (nl +:+ "Fixed " +:+ pretty n +:+ " controller files")
                     :: stdout w1 |})
  | None => None
  end.
Proof.
  unfold FixTsErrors.main, mbind, io_bind. unfold print at 1.
  rewrite ts_main_loop.
  by destruct (count_loop _ _ _ _ _) as [[n w1]|].
Qed.

(** X3: when [main] ends, every file of the traversal holds its
    rewritten text and every other file is as it was. *)
Theorem main_rewrites_found :
  (forall found w w', NoDup found ->
     FixCatchBlocks.main found w = Some (tt, w') ->
     (forall path T, path ∈ found -> files w !! path = Some T ->
        files w' !! path = FixCatchBlocks.rewrite T) /\
     (forall path, path ∉ found -> files w' !! path = files w !! path)) /\
  (forall found w w', NoDup found ->
     FixTsErrors.main found w = Some (tt, w') ->
     (forall path T, path ∈ found -> files w !! path = Some T ->
        files w' !! path = FixTsErrors.rewrite T) /\
     (forall path, path ∉ found -> files w' !! path = files w !! path)).
Proof.
  split.
  - intros found w w' Hnd. rewrite catch_main_unfold.
    destruct (count_loop _ _ _ _ _) as [[n w1]|] eqn:E; [|done]. intros [= <-].
    apply (count_loop_files FixCatchBlocks.rewrite) in E;
      [done | apply fix_catch_blocks_one | done].
  - intros found w w' Hnd. rewrite ts_main_unfold.
    destruct (count_loop _ _ _ _ _) as [[n w1]|] eqn:E; [|done]. intros [= <-].
    apply (count_loop_files FixTsErrors.rewrite) in E;
      [done | apply fix_controller_returns_one | done].
Qed.

Lemma main_rewrites_found_witness :
  exists w',
    FixCatchBlocks.main ["a.controller.ts"; "b.controller.ts"] world2 = Some (tt, w') /\
    (forall path T, path ∈ ["a.controller.ts"; "b.controller.ts"] ->
       files world2 !! path = Some T ->
       files w' !! path = FixCatchBlocks.rewrite T) /\
    (forall path, path ∉ ["a.controller.ts"; "b.controller.ts"] ->
       files w' !! path = files world2 !! path).
Proof.
  eexists. split; [vm_compute; reflexivity|].
  apply (proj1 main_rewrites_found).
  - apply (bool_decide_unpack _). vm_compute. exact I.
  - vm_compute. reflexivity.
Defined.

(** ** The order of the traversal *)

Lemma count_loop_order rw f label found1 found2 :
  (forall path w, f path w = run_one rw path w) ->
  (forall T, is_Some (rw T)) ->
  found1 ≡ₚ found2 -> NoDup found1 ->
  forall w n1 w1,
    count_loop f label found1 0 w = Some (n1, w1) ->
    exists w2,
      count_loop f label found2 0 w = Some (n1, w2) /\
      files w2 = files w1 /\ writes w2 ≡ₚ writes w1 /\ stdout w2 ≡ₚ stdout w1.
Proof.
  intros Hf Hrw Hperm Hnd1 w n1 w1 E1.
  assert (NoDup found2) as Hnd2 by (by rewrite <- Hperm).
  assert (forall path, path ∈ found1 -> ~ fails_on rw w path) as Hok1.
  { intros path Hin Hbad.
    assert (count_loop f label found1 0 w = None); [|congruence].
    apply (count_loop_None rw f label found1 Hf Hrw (or_introl Hnd1)). eauto. }
  assert (forall path, path ∈ found2 -> ~ fails_on rw w path) as Hok2.
  { intros path Hin. apply Hok1. by rewrite Hperm. }
  assert (forall path, path ∈ found1 -> is_Some (files w !! path)) as Hr1.
  { intros path Hin. destruct (files w !! path) eqn:Hp; [eauto|].
    destruct (Hok1 path Hin). by left. }
  destruct (count_loop_run rw f label found1 Hf Hrw Hnd1 0 w Hok1)
    as (w1' & E1' & Hw1 & Hs1 & _).
  rewrite E1 in E1'. injection E1' as -> <-.
  destruct (count_loop_run rw f label found2 Hf Hrw Hnd2 0 w Hok2)
    as (w2 & E2 & Hw2 & Hs2 & _).
  assert (omap (write_of rw w) found1 ≡ₚ omap (write_of rw w) found2) as Ho
    by (by rewrite Hperm).
  exists w2. split_and!.
  - rewrite E2. do 2 f_equal. simpl. symmetry. by apply Permutation_length.
  - apply map_eq. intros path.
    destruct (count_loop_files rw f label found1 Hf Hnd1 _ _ _ _ E1) as [Ha1 Hb1].
    destruct (count_loop_files rw f label found2 Hf Hnd2 _ _ _ _ E2) as [Ha2 Hb2].
    destruct (decide (path ∈ found1)) as [Hin|Hnin].
    + destruct (Hr1 path Hin) as [T HT].
      rewrite (Ha1 path T Hin HT). apply Ha2; [by rewrite <- Hperm | done].
    + rewrite Hb1 by done. apply Hb2. by rewrite <- Hperm.
  - rewrite Hw1, Hw2, !reverse_Permutation. by rewrite Ho.
  - rewrite Hs1, Hs2, !reverse_Permutation. by rewrite Ho.
Qed.

(** X5: the order in which the traversal yields the files does not
    matter: over the same files in another order [main] ends with the
    same files, the same writes and the same printed lines, up to their
    order. *)
Theorem order_irrelevant :
  (forall found1 found2 w w1, found1 ≡ₚ found2 -> NoDup found1 ->
     FixCatchBlocks.main found1 w = Some (tt, w1) ->
     exists w2, FixCatchBlocks.main found2 w = Some (tt, w2) /\
       files w2 = files w1 /\ writes w2 ≡ₚ writes w1 /\ stdout w2 ≡ₚ stdout w1) /\
  (forall found1 found2 w w1, found1 ≡ₚ found2 -> NoDup found1 ->
     FixTsErrors.main found1 w = Some (tt, w1) ->
     exists w2, FixTsErrors.main found2 w = Some (tt, w2) /\
       files w2 = files w1 /\ writes w2 ≡ₚ writes w1 /\ stdout w2 ≡ₚ stdout w1).
Proof.
  split.
  - intros found1 found2 w w1 Hperm Hnd. rewrite !catch_main_unfold.
    destruct (count_loop _ _ found1 _ _) as [[n w1']|] eqn:E; [|done]. intros [= <-].
    destruct (count_loop_order FixCatchBlocks.rewrite _ _ _ _ fix_catch_blocks_one
                rewrite_next_total Hperm Hnd _ _ _ E) as (w2 & -> & Hf & Hw & Hs).
    eexists. split; [done|]. cbn [files writes stdout]. by rewrite Hs.
  - intros found1 found2 w w1 Hperm Hnd. rewrite !ts_main_unfold.
    destruct (count_loop _ _ found1 _ _) as [[n w1']|] eqn:E; [|done]. intros [= <-].
    destruct (count_loop_order FixTsErrors.rewrite _ _ _ _ fix_controller_returns_one
                rewrite_ts_total Hperm Hnd _ _ _ E) as (w2 & -> & Hf & Hw & Hs).
    eexists. split; [done|]. cbn [files writes stdout]. by rewrite Hs.
Qed.

Lemma order_irrelevant_witness :
  exists w1,
    FixCatchBlocks.main ["a.controller.ts"; "b.controller.ts"] world2 = Some (tt, w1) /\
    exists w2,
      FixCatchBlocks.main ["b.controller.ts"; "a.controller.ts"] world2 = Some (tt, w2) /\
      files w2 = files w1 /\ writes w2 ≡ₚ writes w1 /\ stdout w2 ≡ₚ stdout w1.
Proof.
  eexists. split; [vm_compute; reflexivity|].
  apply (proj1 order_irrelevant ["a.controller.ts"; "b.controller.ts"]).
  - apply perm_swap.
  - apply (bool_decide_unpack _). vm_compute. exact I.
  - vm_compute. reflexivity.
Defined.

(** ** Which [res.status] calls the second rule sees *)

Lemma tok_status_shape a rest :
  41%N ∉ a ->
  tok_status (lit "res.status(" ++ a ++ lit ")" ++ rest) =
  if bool_decide (a <> []) && starts_with (lit ".json(") rest
  then Some (11 + length a + 7) else None.
Proof.
  intros Ha. unfold tok_status.
  rewrite (proj2 (starts_with_prefix _ _)) by (by apply prefix_app_r).
  assert (run_len not_rparen (drop 11 (lit "res.status(" ++ a ++ lit ")" ++ rest))
          = length a) as ->.
  { change 11 with (length (lit "res.status(")). rewrite drop_app_length.
    apply run_len_exact.
    - intros j Hj. destruct (lookup_lt_is_Some_2 a j Hj) as [c Hc].
      exists c. split; [by apply lookup_app_l_Some|].
      unfold not_rparen. apply negb_true_iff, N.eqb_neq. intros ->.
      apply Ha. by eapply list_elem_of_lookup_2.
    - intros c. rewrite lookup_app_r by lia. rewrite Nat.sub_diag.
      by intros [= <-]. }
  assert (drop (11 + length a) (lit "res.status(" ++ a ++ lit ")" ++ rest)
          = lit ")" ++ rest) as ->.
  { change 11 with (length (lit "res.status(")).
    rewrite <- drop_drop, drop_app_length. by rewrite drop_app_length. }
  change (starts_with (lit ").json(") (lit ")" ++ rest))
    with (starts_with (lit ".json(") rest).
  destruct a as [|x a]; [done|].
  rewrite bool_decide_eq_true_2 by done. done.
Qed.



(** ** Running a script again *)

Lemma guarded_recent w str i n l :
  i <= length str ->
  guarded w (mk_match str i n l) = true <-> recent w (take i str).
Proof.
  intros Hi. unfold guarded, window. cbn [m_string m_start mk_match].
  rewrite Nat.max_r by lia. rewrite slice_take_drop, contains_spec. split.
  - intros (a & b & E). exists (take (i - w) (take i str) ++ a), b. split.
    + rewrite <- app_assoc, <- E. by rewrite take_drop.
    + apply (f_equal length) in E. rewrite length_drop, length_take in E.
      rewrite !length_app in E. rewrite length_app. lia.
  - intros (a & b & E & Hl). rewrite E.
    assert (length (take i str) = length a + length (kw ++ b)) as Hlen
      by (by rewrite E, !length_app).
    rewrite length_take in Hlen.
    exists (drop (i - w) a), b. rewrite drop_app_le; [done|]. lia.
Qed.

(** An occurrence of [return] next to white space lies before it or
    after it. *)
Lemma return_beside_space (U ws V a b : text) :
  ws <> [] -> all_space ws -> U ++ ws ++ V = a ++ kw ++ b ->
  (exists b', U = a ++ kw ++ b' /\ b = b' ++ ws ++ V) \/
  (exists a', V = a' ++ kw ++ b /\ a = U ++ ws ++ a').
Proof.
  intros Hne Hws E.
  assert (forall c, c ∈ kw -> is_space c = false) as Hkw.
  { intros c Hc. unfold kw in Hc. cbn in Hc.
    repeat (apply elem_of_cons in Hc as [->|Hc]; [done|]).
    by apply elem_of_nil in Hc. }
  assert (forall c, c ∈ ws -> is_space c = true) as Hsp.
  { intros c Hc. unfold all_space in Hws. rewrite Forall_forall in Hws. by apply Hws. }
  apply app_eq_inv in E as [(k & -> & E)|(k & -> & E)].
  - symmetry in E. apply app_eq_inv in E as [(k' & -> & ->)|(k' & Ek & E)].
    + left. exists k'. by rewrite <- ?app_assoc.
    + destruct k' as [|y k'].
      * left. exists []. rewrite app_nil_r in Ek. subst k. cbn [app] in E.
        by rewrite E, app_nil_r.
      * exfalso. destruct ws as [|x ws]; [done|]. injection E as -> _.
        assert (is_space y = false) as H1.
        { apply Hkw. rewrite Ek. apply elem_of_app. right. by left. }
        rewrite Hsp in H1; [done | by left].
  - apply app_eq_inv in E as [(k' & Ek & E)|(k' & -> & ->)].
    + destruct k' as [|y k'].
      * right. exists []. rewrite app_nil_r in Ek. subst k. cbn [app] in E.
        by rewrite <- E, app_nil_r.
      * exfalso.
        assert (is_space y = true) as H1.
        { apply Hsp. rewrite Ek. apply elem_of_app. right. by left. }
        assert (is_space y = false) as H2; [|congruence].
        apply Hkw. unfold kw in *. cbn in E. injection E as <- _. by left.
    + right. exists k'. by rewrite <- ?app_assoc.
Qed.

(** The matches of a pass are determined by the text. *)
Lemma chain_unique tok str pos ms1 ms2 :
  chain tok str pos ms1 -> chain tok str pos ms2 -> ms1 = ms2.
Proof.
  intros H1. revert ms2.
  induction H1 as [pos Hnone|pos i n l ms Hpos Hh Hn _ IH]; intros ms2 H2.
  - destruct H2 as [|pos i n l ms Hpos Hh _ _]; [done|].
    rewrite Hnone in Hh; done.
  - destruct H2 as [pos Hnone|pos i' n' l' ms' Hpos' Hh' Hn' Hc'].
    + rewrite Hnone in Hh; done.
    + assert (i' = i) as ->.
      { destruct (decide (i' < i)); [rewrite Hn in Hh'; [done | lia]|].
        destruct (decide (i < i')); [rewrite Hn' in Hh; [done | lia]|]. lia. }
      rewrite Hh in Hh'. injection Hh' as <- <-. f_equal. by apply IH.
Qed.

Lemma hit_non_space tok c s : is_space c = false -> hit tok (c :: s) = None.
Proof. intros H. unfold hit. cbn [run_len]. by rewrite H. Qed.

Lemma run_len_space (W : text) c X :
  all_space W -> is_space c = false -> run_len is_space (W ++ c :: X) = length W.
Proof.
  intros HW Hc. induction HW as [|x W Hx _ IH]; simpl.
  - by rewrite Hc.
  - by rewrite Hx, IH.
Qed.

(** The rule at white space that is followed by another character. *)
Lemma hit_app_space tok (W : text) c X :
  W <> [] -> all_space W -> is_space c = false ->
  hit tok (W ++ c :: X) = (fun l => (length W, l)) <$> tok (c :: X).
Proof.
  intros Hne HW Hc. unfold hit. rewrite run_len_space by done.
  assert (0 < length W) as Hl by (destruct W; simpl; [done | lia]).
  rewrite (proj2 (Nat.ltb_lt _ _) Hl), drop_app_length.
  by destruct (tok (c :: X)).
Qed.

Lemma kw_sp_split (X1 : text) x k :
  kw_sp = X1 ++ x :: k -> is_space x = false \/ X1 = kw.
Proof.
  unfold kw_sp, kw. cbn [lit]. intros E.
  do 6 (destruct X1 as [|? X1]; [injection E as <-; by left | injection E as <- E]).
  destruct X1 as [|? X1]; [by right|]. injection E as <- E. by destruct X1.
Qed.

(** ** Texts with the keyword put in *)

Lemma padded_refl w A X : padded w A X X.
Proof.
  revert A. induction X as [|c X IH]; intros A; constructor. apply IH.
Qed.

Lemma padded_app w s A X X' :
  padded w (A ++ s) X X' -> padded w A (s ++ X) (s ++ X').
Proof.
  revert A. induction s as [|c s IH]; intros A H.
  - by rewrite app_nil_r in H.
  - cbn [app]. constructor. apply IH. by rewrite <- app_assoc.
Qed.

Lemma last_space (A0 ws A1 : text) c :
  A0 ++ ws = A1 ++ [c] -> ws <> [] -> all_space ws -> is_space c = true.
Proof.
  intros E Hne Hws. destruct (exists_last Hne) as (ws' & y & ->).
  rewrite app_assoc in E. apply app_inj_tail in E as [_ <-].
  by apply Forall_app in Hws as [_ [? _]%Forall_cons].
Qed.

(** A literal without white space that is read in the text with the
    keywords is read in the text without them. *)
Lemma padded_lit_tail w A X X' :
  padded w A X X' ->
  forall l, no_space l = true -> ~ (exists A1 c, A = A1 ++ [c] /\ is_space c = true) ->
    starts_with l X' = true ->
    starts_with l X = true /\
    padded w (A ++ l) (drop (length l) X) (drop (length l) X').
Proof.
  induction 1 as [A|A c X X' H IH|A A0 ws X X' -> Hne Hws Hr H IH];
    intros l Hl HA Hs.
  - destruct l; [|done]. rewrite app_nil_r. split; [done | constructor].
  - destruct l as [|x l].
    { rewrite app_nil_r. split; [done | by constructor]. }
    cbn [starts_with] in Hs |- *. apply andb_true_iff in Hs as [Hx Hs].
    apply andb_true_iff in Hl as [Hxs Hl]. apply negb_true_iff in Hxs.
    apply N.eqb_eq in Hx as <-.
    destruct (IH l Hl) as [IH1 IH2]; [|done|].
    { intros (A1 & c & E & Hc). apply app_inj_tail in E as [_ ->]. congruence. }
    rewrite N.eqb_refl, IH1. split; [done|].
    cbn [length drop]. by rewrite <- app_assoc in IH2.
  - destruct l as [|x l].
    { rewrite app_nil_r. split; [done | by econstructor]. }
    exfalso. apply HA. destruct (exists_last Hne) as (ws' & y & ->).
    exists (A0 ++ ws'), y. split; [by rewrite app_assoc|].
    by apply Forall_app in Hws as [_ [? _]%Forall_cons].
Qed.

Lemma padded_lit w A X X' l :
  padded w A X X' -> no_space l = true ->
  (forall x, starts_with l (kw_sp ++ x) = false) ->
  starts_with l X' = true ->
  starts_with l X = true /\
  padded w (A ++ l) (drop (length l) X) (drop (length l) X').
Proof.
  intros H Hl Hk Hs. destruct l as [|x l].
  { rewrite app_nil_r. done. }
  destruct H as [A|A c X X' H|A A0 ws X X' -> Hne Hws Hr H].
  - done.
  - cbn [starts_with] in Hs |- *. apply andb_true_iff in Hs as [Hx Hs].
    apply andb_true_iff in Hl as [Hxs Hl]. apply negb_true_iff in Hxs.
    apply N.eqb_eq in Hx as <-.
    destruct (padded_lit_tail _ _ _ _ H l Hl) as [H1 H2]; [|done|].
    { intros (A1 & c & E & Hc). apply app_inj_tail in E as [_ ->]. congruence. }
    rewrite N.eqb_refl, H1. split; [done|].
    cbn [length drop]. by rewrite <- app_assoc in H2.
  - by rewrite Hk in Hs.
Qed.

Lemma padded_tok_lit w A X X' l :
  padded w A X X' -> no_space l = true ->
  (forall x, starts_with l (kw_sp ++ x) = false) ->
  is_Some (tok_lit l X') -> is_Some (tok_lit l X).
Proof.
  intros H Hl Hk. unfold tok_lit.
  destruct (starts_with l X') eqn:E; [|by intros [? ?]]. intros _.
  destruct (padded_lit _ _ _ _ _ H Hl Hk E) as [-> _]. eauto.
Qed.

Lemma run_len_app_all p (s t : text) :
  Forall (fun c => p c = true) s -> run_len p (s ++ t) = length s + run_len p t.
Proof. induction 1 as [|c s Hc _ IH]; [done|]. simpl. by rewrite Hc, IH. Qed.

(** The characters up to the first [)], with and without the keywords. *)
Lemma padded_run w A Y Y' :
  padded w A Y Y' ->
  padded w (A ++ take (run_len not_rparen Y) Y)
    (drop (run_len not_rparen Y) Y) (drop (run_len not_rparen Y') Y') /\
  (0 < run_len not_rparen Y' ->
   ~ (exists A1 c, A = A1 ++ [c] /\ is_space c = true) ->
   0 < run_len not_rparen Y).
Proof.
  induction 1 as [A|A c X X' H [IH1 IH2]|A A0 ws X X' -> Hne Hws Hr H [IH1 IH2]].
  - cbn. rewrite app_nil_r. split; [constructor | lia].
  - cbn [run_len]. destruct (not_rparen c) eqn:Hc.
    + cbn [take drop]. split; [|lia].
      by replace (A ++ c :: take (run_len not_rparen X) X)
        with ((A ++ [c]) ++ take (run_len not_rparen X) X)
        by (by rewrite <- app_assoc).
    + cbn [take drop]. rewrite app_nil_r. split; [by constructor | lia].
  - rewrite (run_len_app_all not_rparen kw_sp) by (by repeat constructor).
    rewrite drop_app_ge by (simpl; lia).
    replace (length kw_sp + run_len not_rparen X' - length kw_sp)
      with (run_len not_rparen X') by lia.
    split; [done|]. intros _ HA. exfalso. apply HA.
    destruct (exists_last Hne) as (ws' & y & ->).
    exists (A0 ++ ws'), y. split; [by rewrite app_assoc|].
    by apply Forall_app in Hws as [_ [? _]%Forall_cons].
Qed.

Lemma padded_tok_status w A X X' :
  padded w A X X' -> is_Some (tok_status X') -> is_Some (tok_status X).
Proof.
  intros H. unfold tok_status.
  destruct (starts_with (lit "res.status(") X') eqn:E1; [|by intros [? ?]].
  destruct (padded_lit _ _ _ _ (lit "res.status(") H eq_refl (fun x => eq_refl) E1)
    as [-> H1].
  change (length (lit "res.status(")) with 11 in H1.
  destruct (padded_run _ _ _ _ H1) as [H2 Hn].
  set (n' := run_len not_rparen (drop 11 X')) in *.
  set (n := run_len not_rparen (drop 11 X)) in *.
  destruct (0 <? n') eqn:E2; [|by intros [? ?]]. apply Nat.ltb_lt in E2.
  cbn [andb].
  destruct (starts_with (lit ").json(") (drop (11 + n') X')) eqn:E3;
    [|by intros [? ?]]. intros _.
  assert (0 < n) as Hn0.
  { apply Hn; [done|]. intros (A1 & c & E & Hc).
    change (lit "res.status(") with (lit "res.status" ++ [40%N]) in E.
    rewrite app_assoc in E. apply app_inj_tail in E as [_ <-]. done. }
  rewrite (proj2 (Nat.ltb_lt _ _) Hn0). cbn [andb].
  rewrite <- drop_drop in E3 |- *.
  destruct (padded_lit _ _ _ _ (lit ").json(") H2 eq_refl (fun x => eq_refl) E3)
    as [-> _].
  eauto.
Qed.

(** ** The rule one character earlier *)

Lemma hit_cons_space tok c s :
  (forall c s l, tok (c :: s) = Some l -> is_space c = false) ->
  is_space c = true ->
  is_Some (hit tok (c :: s)) <-> is_Some (hit tok s) \/ is_Some (tok s).
Proof.
  intros Hfirst Hc. unfold hit at 1. cbn [run_len]. rewrite Hc.
  cbn [Nat.ltb Nat.leb drop]. unfold hit.
  destruct (run_len is_space s) as [|n] eqn:En.
  - cbn [Nat.ltb Nat.leb]. rewrite drop_0. destruct (tok s) as [l|].
    + split; eauto.
    + split; [by intros [? ?] | by intros [[? ?]|[? ?]]].
  - cbn [Nat.ltb Nat.leb].
    assert (tok s = None) as Hs.
    { destruct s as [|x s]; [done|]. cbn [run_len] in En.
      destruct (is_space x) eqn:Hx; [|done].
      destruct (tok (x :: s)) as [l|] eqn:Et; [|done].
      apply Hfirst in Et. congruence. }
    rewrite Hs. destruct (tok (drop (S n) s)) as [l|].
    + split; eauto.
    + split; [by intros [? ?] | by intros [[? ?]|[? ?]]].
Qed.

(** Where the rule applies in the text with the keywords, it applies
    in the text without them. *)
Lemma padded_hit tok w A X X' :
  (forall c s l, tok (c :: s) = Some l -> is_space c = false) ->
  (forall w A X X', padded w A X X' -> is_Some (tok X') -> is_Some (tok X)) ->
  padded w A X X' -> is_Some (hit tok X') -> is_Some (hit tok X).
Proof.
  intros Hfirst Htok.
  induction 1 as [A|A c X X' H IH|A A0 ws X X' -> Hne Hws Hr H IH].
  - done.
  - destruct (is_space c) eqn:Hc.
    + rewrite !hit_cons_space by done. intros [Hh|Ht].
      * left. by apply IH.
      * right. by eapply Htok.
    + rewrite hit_non_space by done. by intros [? ?].
  - change (kw_sp ++ X') with (114%N :: (lit "eturn " ++ X')).
    rewrite hit_non_space by done. by intros [? ?].
Qed.

(** ** A pass over its own output *)

Section Again.
Context {body : regex} {tok : text -> option nat} (Tk : token body tok).
Variable w : nat.
(** The token is read from its own characters, does not begin like
    [return ], and is not made by putting keywords in. *)
Hypothesis tok_local : forall s l,
  tok s = Some l -> forall R, tok (take l s ++ R) = Some l.
Hypothesis tok_kw : forall x, tok (kw_sp ++ x) = None.
Hypothesis tok_padded : forall w A X X',
  padded w A X X' -> is_Some (tok X') -> is_Some (tok X).
Hypothesis w_ge : 6 <= w.

Lemma hit_parts s n l :
  hit tok s = Some (n, l) ->
  exists W K R, s = W ++ K ++ R /\ W <> [] /\ all_space W /\
    n = length W /\ l = length K /\
    forall W' R', W' <> [] -> all_space W' ->
      hit tok (W' ++ K ++ R') = Some (length W', l).
Proof.
  intros (En & Hn & Ht & Hl6 & Hl)%(hit_Some Tk).
  pose proof (run_len_le is_space s) as Hle.
  assert (length (take n s) = n) as HlW by (rewrite length_take; lia).
  assert (length (take l (drop n s)) = l) as HlK
    by (rewrite length_take, length_drop; lia).
  exists (take n s), (take l (drop n s)), (drop l (drop n s)). split_and!.
  - by rewrite !take_drop.
  - intros E0. rewrite E0 in HlW. simpl in HlW. lia.
  - apply Forall_lookup. intros j c [Hc Hj]%lookup_take_Some.
    eapply run_len_all; [|done]. lia.
  - done.
  - done.
  - intros W' R' HW'ne HW'. pose proof (tok_local _ _ Ht R') as Ht'.
    destruct (take l (drop n s)) as [|c K] eqn:EK; [simpl in HlK; lia|].
    cbn [app] in Ht' |- *. rewrite hit_app_space; [| done | done |].
    + by rewrite Ht'.
    + by eapply (tok_first _ _ Tk).
Qed.

(** One step of [re.sub]: the text up to the match, the white space,
    the keyword if the window has no [return], the token, and the rest. *)
Lemma chain_step T pos i n l ms O :
  pos <= i -> hit tok (drop i T) = Some (n, l) ->
  splice (add_return w) T pos (mk_match T i n l :: ms) = Some O ->
  exists G W K R rest,
    T = take pos T ++ G ++ W ++ K ++ R /\
    take (i + n + l) T = take pos T ++ G ++ W ++ K /\
    drop (i + n + l) T = R /\
    length (take pos T) = pos /\ length G = i - pos /\
    n = length W /\ l = length K /\ W <> [] /\ all_space W /\
    (forall W' R', W' <> [] -> all_space W' ->
       hit tok (W' ++ K ++ R') = Some (length W', l)) /\
    splice (add_return w) T (i + n + l) ms = Some rest /\
    O = G ++ W ++ (if guarded w (mk_match T i n l) then [] else kw_sp)
          ++ K ++ rest /\
    (guarded w (mk_match T i n l) = true <-> recent w (take pos T ++ G)).
Proof.
  intros Hpos Hh HO.
  destruct (hit_parts _ _ _ Hh) as (W & K & R & Ed & HWne & HW & -> & -> & Hhit).
  assert (0 < length W) as HlW by (destruct W; simpl; [done | lia]).
  assert (i + length W + length K <= length T) as Hlen.
  { apply (f_equal length) in Ed. rewrite length_drop, !length_app in Ed. lia. }
  set (A := take pos T) in *. set (G := drop pos (take i T)).
  assert (take i T = A ++ G) as EAG.
  { unfold A, G. rewrite <- (take_drop pos (take i T)) at 1. f_equal.
    rewrite take_take. f_equal. lia. }
  assert (T = A ++ G ++ W ++ K ++ R) as ET.
  { rewrite <- (take_drop i T) at 1. rewrite EAG, Ed. by rewrite <- app_assoc. }
  assert (length A = pos) as HlA by (unfold A; rewrite length_take; lia).
  assert (length G = i - pos) as HlG
    by (unfold G; rewrite length_drop, length_take; lia).
  assert (slice T pos i = G) as EG by (by rewrite slice_take_drop).
  clearbody A G.
  assert (drop (i + length W) T = K ++ R) as Ed2.
  { rewrite <- drop_drop, Ed. by rewrite drop_app_length. }
  assert (drop (i + length W + length K) T = R) as Ed3.
  { rewrite <- drop_drop, Ed2. by rewrite drop_app_length. }
  assert (take (i + length W + length K) T = A ++ G ++ W ++ K) as Etk.
  { rewrite ET at 1. rewrite !app_assoc. apply take_app_length'.
    rewrite !length_app. lia. }
  pose proof (guarded_recent w T i (length W) (length K) ltac:(lia)) as Hg.
  rewrite EAG in Hg.
  cbn [splice] in HO.
  change (m_end (mk_match T i (length W) (length K)))
    with (i + length W + length K) in HO.
  change (m_start (mk_match T i (length W) (length K))) with i in HO.
  rewrite add_return_mk_match in HO.
  destruct (splice _ _ _ ms) as [rest|] eqn:Es; [|done].
  rewrite EG, Ed, Ed2, !take_app_length in HO.
  exists G, W, K, R, rest. split_and!; try done.
  assert (forall a b : text, Some a = Some b -> b = a) as Hinj by congruence.
  apply Hinj in HO. rewrite HO. by rewrite <- !app_assoc.
Qed.

(** The output of a pass is the input with the keywords put in. *)
Lemma splice_padded T pos ms :
  chain tok T pos ms ->
  forall O, splice (add_return w) T pos ms = Some O ->
    padded w (take pos T) (drop pos T) O.
Proof.
  induction 1 as [pos Hnone|pos i n l ms Hpos Hh Hn _ IH]; intros O HO.
  - injection HO as <-. apply padded_refl.
  - destruct (chain_step _ _ _ _ _ _ _ Hpos Hh HO)
      as (G & W & K & R & rest & ET & Etk & Ed & HlA & HlG & -> & -> & HWne & HW
          & _ & Es & -> & Hg).
    specialize (IH rest Es). rewrite Etk, Ed in IH.
    set (A := take pos T) in *. clearbody A.
    assert (drop pos T = G ++ W ++ K ++ R) as ->.
    { rewrite ET at 1. by rewrite drop_app_length' by done. }
    replace (A ++ G ++ W ++ K) with ((A ++ G ++ W) ++ K) in IH
      by (by rewrite <- !app_assoc).
    apply padded_app in IH.
    destruct (guarded w _).
    + cbn [app].
      apply padded_app in IH. by rewrite <- !app_assoc in IH.
    + assert (~ recent w (A ++ G)) as Hr by (intros Hr%Hg; done).
      apply (padded_ins w _ (A ++ G) W) in IH;
        [|by rewrite <- !app_assoc|done|done|done].
      apply padded_app in IH. by rewrite <- !app_assoc in IH.
Qed.

(** The matches of a second pass, over the output of the first: every
    one has [return] in its window. [P] is the output so far and
    [take pos T] the input read so far. *)
Lemma chain_again T pos ms :
  chain tok T pos ms ->
  forall O P, splice (add_return w) T pos ms = Some O ->
    (forall g, recent w (take pos T ++ g) -> recent w (P ++ g)) ->
    exists ms', chain tok (P ++ O) (length P) ms' /\
      Forall (fun m => guarded w m = true) ms'.
Proof.
  induction 1 as [pos Hnone|pos i n l ms Hpos Hh Hn Hc IH]; intros O P HO Hinv.
  - injection HO as <-. exists []. split; [|done]. constructor.
    intros j Hj. rewrite drop_app_ge by done. rewrite drop_drop. apply Hnone. lia.
  - destruct (chain_step _ _ _ _ _ _ _ Hpos Hh HO)
      as (G & W & K & R & rest & ET & Etk & Ed & HlA & HlG & -> & -> & HWne & HW
          & Hhit & Es & EO & Hg).
    pose proof (splice_padded _ _ _ Hc rest Es) as Hpad. rewrite Etk, Ed in Hpad.
    specialize (IH rest). rewrite Etk in IH.
    set (A := take pos T) in *. clearbody A.
    set (X := if guarded w (mk_match T i (length W) (length K))
              then [] else kw_sp) in *.
    assert (padded w (A ++ G ++ W) (K ++ R) (X ++ K ++ rest)) as Hp1.
    { replace (A ++ G ++ W ++ K) with ((A ++ G ++ W) ++ K) in Hpad
        by (by rewrite <- !app_assoc).
      apply padded_app in Hpad. unfold X. destruct (guarded w _); [done|].
      apply (padded_ins w _ (A ++ G) W);
        [by rewrite <- app_assoc | done | done | | done].
      intros Hr%Hg. done. }
    assert (forall d, d < length G ->
              hit tok (drop d G ++ W ++ X ++ K ++ rest) = None) as Hgap.
    { intros d Hd.
      assert (drop (pos + d) T = drop d G ++ W ++ K ++ R) as Edd.
      { rewrite ET at 1. rewrite drop_app_ge by lia.
        replace (pos + d - length A) with d by lia.
        by rewrite drop_app_le by lia. }
      specialize (Hn (pos + d) ltac:(lia)). rewrite Edd in Hn.
      destruct (hit tok (drop d G ++ W ++ X ++ K ++ rest)) as [r|] eqn:E; [|done].
      exfalso.
      assert (padded w (A ++ take d G) (drop d G ++ W ++ K ++ R)
                (drop d G ++ W ++ X ++ K ++ rest)) as Hp2.
      { rewrite !(app_assoc (drop d G) W). apply padded_app.
        rewrite <- (app_assoc A), (app_assoc (take d G)), take_drop. done. }
      destruct (padded_hit tok _ _ _ _ (tok_first _ _ Tk) tok_padded Hp2)
        as [r' Hr']; [by rewrite E|]. congruence. }
    clear Hn Hpad Hp1.
    assert (P ++ O = (P ++ G ++ W ++ X ++ K) ++ rest) as EPO
      by (by rewrite EO, <- !app_assoc).
    destruct (guarded w (mk_match T i (length W) (length K))) eqn:Eg.
    + (* the match keeps its text *)
      subst X. cbn [app] in *.
      destruct (IH (P ++ G ++ W ++ K) Es) as (ms' & Hc' & Hg').
      { intros g Hr. rewrite <- !app_assoc in Hr |- *. by apply Hinv. }
      exists (mk_match (P ++ O) (length P + length G) (length W) (length K) :: ms').
      split.
      * constructor.
        -- lia.
        -- rewrite EO. rewrite drop_app_ge by lia.
           replace (length P + length G - length P) with (length G) by lia.
           rewrite drop_app_length. by apply Hhit.
        -- intros j Hj. rewrite EO. rewrite drop_app_ge by lia.
           rewrite drop_app_le by lia. apply Hgap. lia.
        -- rewrite EPO. rewrite !length_app in Hc'.
           by replace (length P + length G + length W + length K)
             with (length P + (length G + (length W + length K))) by lia.
      * constructor; [|done]. apply guarded_recent.
        -- rewrite EO, !length_app. lia.
        -- rewrite EO, app_assoc, take_app_length'
             by (rewrite length_app; done).
           apply Hinv. by apply Hg.
    + (* the keyword goes in before the token *)
      subst X.
      destruct (IH (P ++ G ++ W ++ kw_sp ++ K) Es) as (ms' & Hc' & Hg').
      { intros g [a [b [E Hb]]].
        replace ((A ++ G ++ W ++ K) ++ g) with ((A ++ G) ++ W ++ K ++ g) in E
          by (by rewrite <- !app_assoc).
        apply return_beside_space in E as [(b' & EU & Eb)|(a' & EV & Ea)];
          [| |done|done].
        - exfalso. assert (recent w (A ++ G)) as Hr.
          { exists a, b'. split; [done|]. rewrite Eb in Hb.
            rewrite !length_app in Hb. rewrite !length_app. lia. }
          apply Hg in Hr. congruence.
        - exists (P ++ G ++ W ++ kw_sp ++ a'), b. split; [|done].
          rewrite <- !app_assoc. by rewrite EV. }
      assert (P ++ O = (P ++ G ++ W ++ kw) ++ [32%N] ++ K ++ rest) as EO2
        by (by rewrite EO, <- !app_assoc).
      assert (length (P ++ G ++ W ++ kw) = length P + length G + length W + 6)
        as Hl2 by (rewrite !length_app; simpl; lia).
      exists (mk_match (P ++ O) (length P + length G + length W + 6) 1 (length K)
                :: ms').
      split.
      * constructor.
        -- lia.
        -- rewrite EO2, drop_app_length' by done.
           apply (Hhit [32%N]); [done | by repeat constructor].
        -- intros j Hj. rewrite EO.
           destruct (decide (j < length P + length G)) as [H1|H1].
           { rewrite drop_app_ge by lia. rewrite drop_app_le by lia.
             apply Hgap. lia. }
           rewrite drop_app_ge by lia. rewrite drop_app_ge by lia.
           destruct (decide (j < length P + length G + length W)) as [H2|H2].
           { rewrite drop_app_le by lia.
             change (kw_sp ++ K ++ rest)
               with (114%N :: (lit "eturn " ++ K ++ rest)).
             rewrite hit_app_space.
             - change (114%N :: (lit "eturn " ++ K ++ rest))
                 with (kw_sp ++ K ++ rest).
               by rewrite tok_kw.
             - intros E0. apply (f_equal length) in E0. rewrite length_drop in E0.
               simpl in E0. lia.
             - by apply Forall_drop.
             - done. }
           rewrite drop_app_ge by lia.
           remember (j - length P - length G - length W) as d eqn:Ed'.
           assert (d < 6) as Hd6 by lia. clear -Hd6.
           do 6 (destruct d as [|d]; [by apply hit_non_space|]). lia.
        -- rewrite EPO. rewrite !length_app in Hc'.
           change (length kw_sp) with 7 in Hc'.
           by replace (length P + length G + length W + 6 + 1 + length K)
             with (length P + (length G + (length W + (7 + length K)))) by lia.
      * constructor; [|done]. apply guarded_recent.
        -- rewrite EO2, length_app. lia.
        -- rewrite EO2, take_app_length' by done.
           exists (P ++ G ++ W), []. split; [by rewrite app_nil_r, <- !app_assoc|].
           simpl. lia.
Qed.

(** After a pass, every match of the rule in the output has [return]
    in its window. *)
Lemma pass_guarded T O :
  re_sub (rule body) (add_return w) T = Some O ->
  Forall (fun m => guarded w m = true) (finditer (rule body) O).
Proof.
  intros HO. rewrite re_sub_splice in HO.
  destruct (chain_again T 0 _ (finditer_chain Tk T) O [] HO)
    as (ms' & Hc & Hg); [done|].
  by rewrite (chain_unique _ _ _ _ _ (finditer_chain Tk O) Hc).
Qed.

(** A pass over its own output changes nothing. *)
Lemma pass_again T O :
  re_sub (rule body) (add_return w) T = Some O ->
  re_sub (rule body) (add_return w) O = Some O.
Proof.
  intros HO%pass_guarded. rewrite (re_sub_rule Tk).
  by rewrite insertion_points_guarded.
Qed.

Lemma pass_padded T O :
  re_sub (rule body) (add_return w) T = Some O -> padded w [] T O.
Proof.
  intros HO. rewrite re_sub_splice in HO.
  apply (splice_padded T 0 _ (finditer_chain Tk T) O HO).
Qed.

(** A text where the rule applies only after [return] is left as it
    is by the pass. *)
Lemma settled_fixed str :
  settled w tok str -> re_sub (rule body) (add_return w) str = Some str.
Proof.
  intros Hs. rewrite (re_sub_rule Tk), insertion_points_guarded; [done|].
  eapply Forall_impl; [apply (finditer_match_ok Tk)|].
  intros m (i & n & l & -> & Hh & Hb).
  pose proof Hh as (_ & ? & _ & _ & Hl)%(hit_Some Tk). rewrite length_drop in Hl.
  apply guarded_recent; [lia|].
  apply (Hs (take i str) (drop i str)).
  - by rewrite take_drop.
  - by rewrite Hh.
  - intros P0 c E. destruct i as [|i]; [rewrite take_0 in E; by destruct P0|].
    destruct Hb as [|(c' & Hc' & Hs')]; [done|].
    replace (S i - 1) with i in Hc' by lia.
    assert (take (S i) str !! i = Some c') as Hc2
      by (rewrite lookup_take_lt; [done | lia]).
    rewrite E in Hc2. apply (f_equal length) in E.
    rewrite length_take, length_app in E. cbn [length] in E.
    rewrite lookup_app_r in Hc2 by lia.
    replace (i - length P0) with 0 in Hc2 by lia. by injection Hc2 as ->.
Qed.

(** The rule applies in the output only where it applied in the input
    or after a keyword, so [return] is before it there as well. *)
Lemma settled_padded_from A X X' :
  padded w A X X' ->
  forall P,
    (forall g, recent w (A ++ g) -> recent w (P ++ g)) ->
    (clean P -> clean A) ->
    (forall X1 X2, X = X1 ++ X2 -> is_Some (hit tok X2) ->
       clean (A ++ X1) -> recent w (A ++ X1)) ->
    forall X1' X2', X' = X1' ++ X2' -> is_Some (hit tok X2') ->
      clean (P ++ X1') -> recent w (P ++ X1').
Proof.
  induction 1 as [A|A c X X' H IH|A A0 ws X X' -> Hne Hws Hr H IH];
    intros P Hinv Hcl HT X1' X2' E Hh Hc.
  - symmetry in E. apply app_eq_nil in E as [-> ->]. by destruct Hh.
  - destruct X1' as [|c' X1'].
    + cbn [app] in E. subst X2'. rewrite app_nil_r in Hc.
      apply Hinv. apply (HT [] (c :: X)); [done | |].
      * eapply (padded_hit tok); [apply (tok_first _ _ Tk) | apply tok_padded | | done].
        by constructor.
      * rewrite app_nil_r. by apply Hcl.
    + injection E as <- E.
      replace (P ++ c :: X1') with ((P ++ [c]) ++ X1') in Hc |- *
        by (by rewrite <- app_assoc).
      eapply (IH (P ++ [c])); [| | |done|done|done].
      * intros g Hg. rewrite <- app_assoc in Hg |- *. by apply Hinv.
      * intros Hpc P0 x E0. apply app_inj_tail in E0 as [_ <-].
        by apply (Hpc P c).
      * intros X1 X2 E1 Hh1 Hc1. rewrite <- app_assoc in Hc1 |- *.
        apply (HT (c :: X1) X2); [by rewrite E1 | done | done].
  - assert (forall k X2, X' = k ++ X2 -> is_Some (hit tok X2) ->
              clean (P ++ kw_sp ++ k) -> recent w (P ++ kw_sp ++ k)) as Hafter.
    { intros k X2 Ek Hh2 Hc2. rewrite app_assoc in Hc2 |- *.
      eapply (IH (P ++ kw_sp)); [| |done|done|done|done].
      - intros g [a [b [Eg Hb]]]. rewrite <- app_assoc in Eg.
        apply return_beside_space in Eg as [(b' & EU & Eb)|(a' & EV & Ea)];
          [| |done|done].
        + exfalso. apply Hr. exists a, b'. split; [done|]. rewrite Eb in Hb.
          rewrite !length_app in Hb. rewrite !length_app. lia.
        + exists (P ++ kw_sp ++ a'), b. split; [|done].
          rewrite <- !app_assoc. by rewrite EV.
      - intros Hpc. exfalso.
        assert (is_space 32 = false) as H32; [|done].
        apply (Hpc (P ++ kw)). by rewrite <- app_assoc. }
    apply app_eq_inv in E as [(k & Ek & ->)|(k & -> & Ek)]; [|by eapply Hafter].
    destruct k as [|x k].
    + rewrite app_nil_r in Ek. subst X1'. cbn [app] in Hh.
      rewrite <- (app_nil_r kw_sp) in Hc |- *. by apply (Hafter [] X').
    + destruct (kw_sp_split _ _ _ Ek) as [Hx | ->].
      * cbn [app] in Hh. rewrite hit_non_space in Hh by done. by destruct Hh.
      * exists P, []. split; [by rewrite app_nil_r|]. simpl. lia.
Qed.

Lemma settled_padded T O :
  padded w [] T O -> settled w tok T -> settled w tok O.
Proof.
  intros Hp Hs P X E Hh Hc.
  apply (settled_padded_from [] T O Hp [] (fun g H => H) (fun H => H)
           (fun X1 X2 E1 H1 H2 => Hs X1 X2 E1 H1 H2) P X E Hh Hc).
Qed.

End Again.

(** ** The three rules *)

Lemma tok_lit_local l s k :
  tok_lit l s = Some k -> forall R, tok_lit l (take k s ++ R) = Some k.
Proof.
  unfold tok_lit. destruct (starts_with l s) eqn:E; [|done]. intros [= <-] R.
  apply starts_with_prefix in E as [r ->]. rewrite take_app_length.
  by rewrite (proj2 (starts_with_prefix _ _) (prefix_app_r _ _ _ (reflexivity _))).
Qed.

Lemma tok_status_local s k :
  tok_status s = Some k -> forall R, tok_status (take k s ++ R) = Some k.
Proof.
  intros (a & Ha & -> & E & Hall)%tok_status_Some R.
  assert (take (11 + length a + 7) s = lit "res.status(" ++ a ++ lit ").json(") as ->.
  { rewrite E at 1. rewrite !app_assoc. apply take_app_length'.
    rewrite !length_app. simpl. lia. }
  rewrite <- !app_assoc.
  change (lit ").json(" ++ R) with (lit ")" ++ lit ".json(" ++ R).
  rewrite tok_status_shape.
  - rewrite bool_decide_eq_true_2 by (intros ->; simpl in Ha; lia).
    by rewrite (proj2 (starts_with_prefix _ _) (prefix_app_r _ _ _ (reflexivity _))).
  - intros Hin. rewrite Forall_forall in Hall. by apply Hall in Hin.
Qed.

Lemma rewrite_next_again T out :
  FixCatchBlocks.rewrite T = Some out -> FixCatchBlocks.rewrite out = Some out.
Proof.
  apply (pass_again token_next 30 (tok_lit_local _)).
  - intros x. reflexivity.
  - intros w A X X' H. by apply (padded_tok_lit _ _ _ _ _ H).
  - lia.
Qed.

Lemma rewrite_json_again T out :
  FixTsErrors.rewrite_json T = Some out -> FixTsErrors.rewrite_json out = Some out.
Proof.
  apply (pass_again token_json 20 (tok_lit_local _)).
  - intros x. reflexivity.
  - intros w A X X' H. by apply (padded_tok_lit _ _ _ _ _ H).
  - lia.
Qed.

Lemma rewrite_status_again T out :
  FixTsErrors.rewrite_status T = Some out ->
  FixTsErrors.rewrite_status out = Some out.
Proof.
  apply (pass_again token_status 20 tok_status_local).
  - intros x. reflexivity.
  - apply padded_tok_status.
  - lia.
Qed.

(** Where all matches have [return] in their windows, the rule applies
    only after [return]: a literal token hides no other match. *)
Lemma guarded_settled body l w str :
  token body (tok_lit l) -> no_space l = true ->
  Forall (fun m => guarded w m = true) (finditer (rule body) str) ->
  settled w (tok_lit l) str.
Proof.
  intros Tk Hns Hg P X -> [[n k] Hh] Hc.
  assert (boundary (P ++ X) (length P)) as Hb.
  { destruct (decide (P = [])) as [->|Hne]; [by left|]. right.
    destruct (exists_last Hne) as (P0 & c & ->). exists c. split.
    - rewrite length_app. cbn [length].
      replace (length P0 + 1 - 1) with (length P0) by lia.
      rewrite <- !app_assoc. by apply list_lookup_middle.
    - by apply (Hc P0). }
  assert (drop (length P) (P ++ X) = X) as Hd by apply drop_app_length.
  pose proof (chain_complete Tk
                (fun s l' j c => tok_lit_no_space l s l' j c Hns)
                (P ++ X) 0 _ (length P) n k (finditer_chain Tk (P ++ X))
                ltac:(lia) Hb) as Hin.
  rewrite Hd in Hin. specialize (Hin Hh).
  rewrite Forall_forall in Hg. apply Hg in Hin.
  apply guarded_recent in Hin; [|rewrite length_app; lia].
  by rewrite take_app_length in Hin.
Qed.

(** The two substitutions of [fix_controller_returns], run on their
    own output, change nothing. *)
Lemma rewrite_ts_again T out :
  FixTsErrors.rewrite T = Some out -> FixTsErrors.rewrite out = Some out.
Proof.
  unfold FixTsErrors.rewrite.
  destruct (FixTsErrors.rewrite_json T) as [T1|] eqn:E1; [|done]. intros E2.
  assert (settled 20 tok_json T1) as Hs1.
  { apply (guarded_settled _ _ _ _ token_json eq_refl).
    apply (pass_guarded token_json 20 (tok_lit_local _)) in E1; [done| | |lia].
    - intros x. reflexivity.
    - intros w A X X' H. by apply (padded_tok_lit _ _ _ _ _ H). }
  assert (padded 20 [] T1 out) as Hp.
  { apply (pass_padded token_status 20 tok_status_local) in E2; [done|]. lia. }
  assert (settled 20 tok_json out) as Hs2.
  { eapply (settled_padded token_json 20); [| |done|done].
    - intros w A X X' H. by apply (padded_tok_lit _ _ _ _ _ H).
    - lia. }
  assert (FixTsErrors.rewrite_json out = Some out) as ->
    by (apply (settled_fixed token_json 20); [lia | done]).
  by eapply rewrite_status_again.
Qed.

(** ** A second run *)

(** After the loop over the files, with a rewrite that leaves its own
    output as it is, every file of the list is a fixed point of the
    rewrite. *)
Lemma count_loop_settled rw f label found :
  (forall path w, f path w = run_one rw path w) ->
  (forall T out, rw T = Some out -> rw out = Some out) ->
  forall fixed w n w',
    count_loop f label found fixed w = Some (n, w') ->
    (forall path, path ∈ found ->
       exists T, files w' !! path = Some T /\ rw T = Some T) /\
    (forall path, path ∉ found -> files w' !! path = files w !! path).
Proof.
  intros Hf Hrw. induction found as [|p found IH]; intros fixed w n w'.
  - cbn. intros [= _ <-]. split; [by intros ? ?%elem_of_nil | done].
  - cbn [count_loop]. unfold mbind at 1, io_bind at 1. rewrite Hf.
    destruct (run_one rw p w) as [[b w1]|] eqn:E; [|done].
    apply run_one_files in E as (T0 & out & HT0 & Hout & Hw1 & _).
    intros Hloop.
    assert (exists fixed' w2, files w2 = files w1 /\
              count_loop f label found fixed' w2 = Some (n, w'))
      as (fixed' & w2 & Hw2 & Hloop').
    { destruct b.
      - unfold mbind at 1, io_bind at 1 in Hloop. unfold print at 1 in Hloop.
        eexists _, _. split; [|exact Hloop]. done.
      - by exists fixed, w1. }
    apply IH in Hloop' as [IH1 IH2]. rewrite Hw2 in IH2. split.
    + intros path [->|Hin]%elem_of_cons; [|by apply IH1].
      destruct (decide (p ∈ found)) as [Hin|Hnin]; [by apply IH1|].
      exists out. rewrite IH2 by done. rewrite Hw1, lookup_insert_eq. eauto.
    + intros path [Hne Hnin]%not_elem_of_cons.
      rewrite IH2 by done. by rewrite Hw1, lookup_insert_ne.
Qed.

(** Over files that the rewrite leaves as they are, the loop counts
    nothing and changes nothing. *)
Lemma count_loop_fixed rw f label found :
  (forall path w, f path w = run_one rw path w) ->
  forall fixed w,
    (forall path, path ∈ found ->
       exists T, files w !! path = Some T /\ rw T = Some T) ->
    count_loop f label found fixed w = Some (fixed, w).
Proof.
  intros Hf. induction found as [|p found IH]; intros fixed w Hall; [done|].
  cbn [count_loop]. unfold mbind at 1, io_bind at 1. rewrite Hf.
  destruct (Hall p) as (T & HT & Hr); [by left|].
  unfold run_one. rewrite HT, Hr, decide_True by done.
  apply IH. intros path Hin. apply Hall. by right.
Qed.

(** X7: a second run of [fix-catch-blocks.py] changes nothing: the
    rewrite leaves its own output as it is, [fix_catch_blocks] returns
    [False] on a file it has been run on, and [main], run again over
    the same files, writes no file and reports no file fixed. *)
Theorem second_run_changes_nothing :
  (forall T out,
     FixCatchBlocks.rewrite T = Some out -> FixCatchBlocks.rewrite out = Some out) /\
  (forall path w b w1,
     FixCatchBlocks.fix_catch_blocks path w = Some (b, w1) ->
     FixCatchBlocks.fix_catch_blocks path w1 = Some (false, w1)) /\
  (forall found w w1,
     FixCatchBlocks.main found w = Some (tt, w1) ->
     FixCatchBlocks.main found w1 =
       Some (tt, {| files := files w1; unwritable := unwritable w1; writes := writes w1;
                    stdout := (nl +:+ "Fixed 0 files") :: stdout w1 |})).
Proof.
  split_and!.
  - apply rewrite_next_again.
  - intros path w b w1. rewrite fix_catch_blocks_one.
    intros (T & out & HT & Hout & Hw1 & _)%run_one_files.
    rewrite (fix_catch_blocks_run path out out w1).
    + by rewrite decide_True.
    + by rewrite Hw1, lookup_insert_eq.
    + by eapply rewrite_next_again.
  - intros found w w1. rewrite !catch_main_unfold.
    destruct (count_loop _ _ found 0 w) as [[n w0]|] eqn:E; [|done].
    intros [= <-].
    apply (count_loop_settled FixCatchBlocks.rewrite) in E as [E _];
      [|apply fix_catch_blocks_one|apply rewrite_next_again].
    rewrite (count_loop_fixed FixCatchBlocks.rewrite);
      [done | apply fix_catch_blocks_one | done].
Qed.

Lemma second_run_changes_nothing_witness :
  exists w1,
    FixCatchBlocks.fix_catch_blocks "a.controller.ts" world2 = Some (true, w1) /\
    FixCatchBlocks.fix_catch_blocks "a.controller.ts" w1 = Some (false, w1).
Proof.
  eexists. split; [vm_compute; reflexivity|].
  apply (proj1 (proj2 second_run_changes_nothing) "a.controller.ts" world2 true).
  vm_compute. reflexivity.
Defined.

(** X8: a second run of [fix-ts-errors.py] changes nothing: each of the
    two substitutions of [fix_controller_returns] leaves its own output
    as it is, the two together leave their output as it is,
    [fix_controller_returns] returns [False] on a file it has been run
    on, and [main], run again over the same files, writes no file and
    reports no file fixed. *)
Theorem second_run_of_ts_changes_nothing :
  (forall T out,
     FixTsErrors.rewrite_json T = Some out ->
     FixTsErrors.rewrite_json out = Some out) /\
  (forall T out,
     FixTsErrors.rewrite_status T = Some out ->
     FixTsErrors.rewrite_status out = Some out) /\
  (forall T out,
     FixTsErrors.rewrite T = Some out -> FixTsErrors.rewrite out = Some out) /\
  (forall path w b w1,
     FixTsErrors.fix_controller_returns path w = Some (b, w1) ->
     FixTsErrors.fix_controller_returns path w1 = Some (false, w1)) /\
  (forall found w w1,
     FixTsErrors.main found w = Some (tt, w1) ->
     FixTsErrors.main found w1 =
       Some (tt, {| files := files w1; unwritable := unwritable w1; writes := writes w1;
                    stdout :=
                      "The pattern 'prisma.table.method()' needs table models defined in Prisma schema"
                      :: (nl +:+ "Note: Service file database access errors require manual review")
                      :: (nl +:+ "Fixed 0 controller files")
                      :: "Fixing controller return statements..."
                      :: stdout w1 |})).
Proof.
  split_and!.
  - apply rewrite_json_again.
  - apply rewrite_status_again.
  - apply rewrite_ts_again.
  - intros path w b w1. rewrite fix_controller_returns_one.
    intros (T & out & HT & Hout & Hw1 & _)%run_one_files.
    rewrite (fix_controller_returns_run path out out w1).
    + by rewrite decide_True.
    + by rewrite Hw1, lookup_insert_eq.
    + by eapply rewrite_ts_again.
  - intros found w w1. rewrite !ts_main_unfold.
    destruct (count_loop _ _ found 0 _) as [[n w0]|] eqn:E; [|done].
    intros [= <-].
    apply (count_loop_settled FixTsErrors.rewrite) in E as [E _];
      [|apply fix_controller_returns_one|apply rewrite_ts_again].
    cbn [files writes stdout].
    rewrite (count_loop_fixed FixTsErrors.rewrite);
      [done | apply fix_controller_returns_one | done].
Qed.

Lemma second_run_of_ts_changes_nothing_witness :
  exists w1,
    FixTsErrors.fix_controller_returns "a.controller.ts"
      (world0 "a.controller.ts" (lit " res.status( res.json(y).json(z)"))
      = Some (true, w1) /\
    FixTsErrors.fix_controller_returns "a.controller.ts" w1 = Some (false, w1).
Proof.
  eexists. split; [vm_compute; reflexivity|].
  apply (proj1 (proj2 (proj2 (proj2 second_run_of_ts_changes_nothing)))
           "a.controller.ts"
           (world0 "a.controller.ts" (lit " res.status( res.json(y).json(z)")) true).
  vm_compute. reflexivity.
Defined.

(** ** When [main] raises *)


